(** * mcp-state-sync: policy resolution and annotation pipeline

    A shallow embedding of the core of [mcp-state-sync] (GlobMatcher,
    PolicyValidator, PolicyEngine, DescriptionDecorator, CausalEngine,
    ResponseDecorator and the [tools/call] handler of ServerWrapper),
    with the properties of its specification stated and proved over it.

    Conventions.
    - A JavaScript string is the sequence of its UTF-16 code units
      ([jsstring], a list of [N]); string literals of the source are
      written with [lit], the em dash of the response notice by its code
      unit 8212.
    - A value whose runtime type is not fixed by the code (the fields of a
      rule handed to the constructor) is a [jsval].
    - Frozen objects are an identity together with their contents; mutable
      objects (call results and their content arrays) live in a heap. *)

From Stdlib Require Import String Ascii NArith List Bool Lia.
From stdpp Require Import gmap list.

Local Open Scope N_scope.
Local Open Scope nat_scope.

(** ** JavaScript strings *)

Abbreviation jsstring := (list N) (only parsing).

Definition lit (s : string) : jsstring :=
  map N_of_ascii (list_ascii_of_string s).

Definition str_eqb (a b : jsstring) : bool := bool_decide (a = b).

(** [undefined === x] for array reads: an index out of range reads
    [undefined], modelled by [None]. *)
Definition opt_str_eqb (a b : option jsstring) : bool := bool_decide (a = b).

Definition DOT : N := 46%N.

(** [s.split('.')]: always at least one segment. *)
Fixpoint split_dot (s : jsstring) : list jsstring :=
  match s with
  | [] => [[]]
  | c :: s' =>
    if N.eqb c DOT then [] :: split_dot s'
    else match split_dot s' with
         | seg :: rest => (c :: seg) :: rest
         | [] => [[c]]
         end
  end.

(** [parts.join(sep)] on an array of strings. *)
Fixpoint join (sep : jsstring) (parts : list jsstring) : jsstring :=
  match parts with
  | [] => []
  | [p] => p
  | p :: rest => p ++ sep ++ join sep rest
  end.

(** ** Regular expressions

    The two regular-expression literals of the source, as data, and a
    matcher by derivatives.  Anchors are handled by the operations that
    use a pattern: [test_anchored] for [/^...$/.test(s)] and
    [replace_at_end] for [s.replace(/...$/, '')]. *)

Module Regex.

Inductive t :=
  | Fail                      (* matches nothing *)
  | Eps                       (* the empty string *)
  | Class (p : N → bool)      (* one code unit of a class *)
  | Cat (r1 r2 : t)
  | Alt (r1 r2 : t)
  | Star (r : t).

Fixpoint nullable (r : t) : bool :=
  match r with
  | Fail => false
  | Eps => true
  | Class _ => false
  | Cat r1 r2 => nullable r1 && nullable r2
  | Alt r1 r2 => nullable r1 || nullable r2
  | Star _ => true
  end.

Fixpoint deriv (c : N) (r : t) : t :=
  match r with
  | Fail => Fail
  | Eps => Fail
  | Class p => if p c then Eps else Fail
  | Cat r1 r2 =>
    if nullable r1 then Alt (Cat (deriv c r1) r2) (deriv c r2)
    else Cat (deriv c r1) r2
  | Alt r1 r2 => Alt (deriv c r1) (deriv c r2)
  | Star r1 => Cat (deriv c r1) (Star r1)
  end.

(** Does [r] match the whole of [s]? *)
Fixpoint full_match (r : t) (s : jsstring) : bool :=
  match s with
  | [] => nullable r
  | c :: s' => full_match (deriv c r) s'
  end.

(** The strings a pattern denotes. [full_match] decides it (lemma
    [full_match_Matches]). *)
Inductive Matches : t → jsstring → Prop :=
  | Matches_Eps : Matches Eps []
  | Matches_Class p c : p c = true → Matches (Class p) [c]
  | Matches_Cat r1 r2 s1 s2 :
      Matches r1 s1 → Matches r2 s2 → Matches (Cat r1 r2) (s1 ++ s2)
  | Matches_Alt_l r1 r2 s : Matches r1 s → Matches (Alt r1 r2) s
  | Matches_Alt_r r1 r2 s : Matches r2 s → Matches (Alt r1 r2) s
  | Matches_Star_nil r : Matches (Star r) []
  | Matches_Star_app r s1 s2 :
      Matches r s1 → Matches (Star r) s2 → Matches (Star r) (s1 ++ s2).

(** A literal string. *)
Fixpoint Lit (s : jsstring) : t :=
  match s with
  | [] => Eps
  | c :: s' => Cat (Class (N.eqb c)) (Lit s')
  end.

Definition Plus (r : t) : t := Cat r (Star r).
Definition Opt (r : t) : t := Alt r Eps.

(** [/^r$/.test(s)] (no [m] flag: [$] is the end of the input). *)
Definition test_anchored (r : t) (s : jsstring) : bool := full_match r s.

(** [s.replace(/r$/, '')] (no [g] flag): the match is the one that starts
    leftmost; it ends where the input ends, so what remains is the text
    before it.  Without a match the string is unchanged. *)
Fixpoint replace_at_end (r : t) (s : jsstring) : jsstring :=
  if full_match r s then []
  else match s with
       | [] => []
       | c :: s' => c :: replace_at_end r s'
       end.

(** The suffixes of a string, longest first. *)
Fixpoint tails (s : jsstring) : list jsstring :=
  match s with
  | [] => [[]]
  | _ :: s' => s :: tails s'
  end.

(** [\s]: WhiteSpace and LineTerminator code units. *)
Definition space (c : N) : bool :=
  (N.eqb c 9 || N.eqb c 10 || N.eqb c 11 || N.eqb c 12 || N.eqb c 13
   || N.eqb c 32 || N.eqb c 160 || N.eqb c 5760
   || (N.leb 8192 c && N.leb c 8202)
   || N.eqb c 8232 || N.eqb c 8233 || N.eqb c 8239 || N.eqb c 8287
   || N.eqb c 12288 || N.eqb c 65279)%N.

(** [\w]: [[A-Za-z0-9_]]. *)
Definition word (c : N) : bool :=
  ((N.leb 65 c && N.leb c 90) || (N.leb 97 c && N.leb c 122)
   || (N.leb 48 c && N.leb c 57) || N.eqb c 95)%N.

End Regex.

(** ** GlobMatcher.ts *)

Module GlobMatcher.

Definition STAR : jsstring := lit "*".
Definition DSTAR : jsstring := lit "**".

(** [matchSegments(pp, pi, np, ni)].  The recursion of the source is on
    the two indices; [fuel] bounds its depth. [None] is "out of fuel". *)
Fixpoint matchSegments (fuel : nat)
    (pp : list jsstring) (pi : nat) (np : list jsstring) (ni : nat)
    : option bool :=
  match fuel with
  | O => None
  | S fuel' =>
    if (pi =? length pp) && (ni =? length np) then Some true
    else if pi =? length pp then Some false
    else if ni =? length np then
      (* for (let i = pi; i < pp.length; i++) if (pp[i] !== '**') return false *)
      Some (forallb (fun seg => str_eqb seg DSTAR) (drop pi pp))
    else
      let segment := pp !! pi in
      if opt_str_eqb segment (Some DSTAR) then
        match matchSegments fuel' pp (pi + 1) np ni with
        | Some true => Some true
        | Some false => matchSegments fuel' pp pi np (ni + 1)
        | None => None
        end
      else if opt_str_eqb segment (Some STAR) || opt_str_eqb segment (np !! ni) then
        matchSegments fuel' pp (pi + 1) np (ni + 1)
      else Some false
  end.

(** Every call increases [pi + ni], which never exceeds
    [pp.length + np.length]: this much fuel is never exhausted
    (lemma [matchSegments_total]). *)
Definition matchFuel (pp np : list jsstring) : nat :=
  S (length pp + length np).

Definition matchGlob (pattern name : jsstring) : bool :=
  let pp := split_dot pattern in
  let np := split_dot name in
  match matchSegments (matchFuel pp np) pp 0 np 0 with
  | Some b => b
  | None => false
  end.

(** The matcher as the specification words it: recursive consumption of
    the two segment sequences. *)
Fixpoint spec_matches (ps : list jsstring) : list jsstring → bool :=
  match ps with
  | [] => fun ns => match ns with [] => true | _ :: _ => false end
  | p :: ps' =>
    fix consume (ns : list jsstring) : bool :=
      match ns with
      | [] => forallb (fun seg => str_eqb seg DSTAR) (p :: ps')
      | n :: ns' =>
        if str_eqb p DSTAR then spec_matches ps' ns || consume ns'
        else if str_eqb p STAR then spec_matches ps' ns'
        else if str_eqb p n then spec_matches ps' ns'
        else false
      end
  end.

Definition wildcard_free (ps : list jsstring) : Prop :=
  Forall (fun seg => seg ≠ STAR ∧ seg ≠ DSTAR) ps.

End GlobMatcher.

Import GlobMatcher.

(** ** Runtime values *)

(** The values a configuration field can hold at run time.  TypeScript
    types are erased, so the validator inspects these. [JObj] stands for
    any object that is neither an array nor a primitive. *)
#[warnings="-register-all"]
Inductive jsval :=
  | JUndefined
  | JNull
  | JBool (b : bool)
  | JNum (z : Z)
  | JStr (s : jsstring)
  | JArr (elems : list jsval)
  | JObj.

(** [!!v] *)
Definition truthy (v : jsval) : bool :=
  match v with
  | JUndefined | JNull => false
  | JBool b => b
  | JNum z => negb (Z.eqb z 0)
  | JStr s => negb (bool_decide (s = []))
  | JArr _ | JObj => true
  end.

(** [typeof v === 'string'] *)
Definition is_string (v : jsval) : bool :=
  match v with JStr _ => true | _ => false end.

(** [v !== undefined] *)
Definition is_defined (v : jsval) : bool :=
  match v with JUndefined => false | _ => true end.

(** [a ?? b] *)
Definition nullish_or (a b : jsval) : jsval :=
  match a with JUndefined | JNull => b | _ => a end.

(** Evaluation of code whose fields are read at their declared TypeScript
    type.  [IllTyped]: a field holds a value outside its declared type;
    what the runtime does then is not modelled.  Validation at
    construction excludes it (lemma [resolve_reachable]). *)
Inductive outcome (A : Type) :=
  | Ret (a : A)
  | IllTyped.
Arguments Ret {A} a.
Arguments IllTyped {A}.

(** A thrown error or a normal completion. *)
Inductive result (E A : Type) :=
  | Ok (a : A)
  | Throw (e : E).
Arguments Ok {E A} a.
Arguments Throw {E A} e.

(** ** types.ts *)

Module SyncPolicy.
Record t := mk {
  match_ : jsval;        (* match: string *)
  cacheControl : jsval;  (* cacheControl?: CacheDirective *)
  invalidates : jsval;   (* invalidates?: readonly string[] *)
}.
End SyncPolicy.

Module Defaults.
Record t := mk { cacheControl : jsval }.
End Defaults.

(** A resolved policy is a frozen object: its identity [id] and its
    contents, which never change. *)
Module ResolvedPolicy.
Record t := mk {
  id : nat;
  cacheControl : option jsstring;
  invalidates : option (list jsstring);
}.
Definition value (r : t) : option jsstring * option (list jsstring) :=
  (cacheControl r, invalidates r).
End ResolvedPolicy.

(** ** PolicyValidator.ts *)

Module PolicyValidator.

Definition VALID_DIRECTIVES : list jsstring := [lit "no-store"; lit "immutable"].

(** [VALID_DIRECTIVES.has(v)] *)
Definition has_directive (v : jsval) : bool :=
  match v with
  | JStr s => bool_decide (s ∈ VALID_DIRECTIVES)
  | _ => false
  end.

Definition in_range (lo hi c : N) : bool := (N.leb lo c && N.leb c hi)%bool.

(** The class [[a-zA-Z0-9_-]]. *)
Definition segment_char (c : N) : bool :=
  in_range 97 122 c || in_range 65 90 c || in_range 48 57 c
  || N.eqb c 95 || N.eqb c 45.

(** [/^(\*{1,2}|[a-zA-Z0-9_-]+)$/], without its anchors. *)
Definition VALID_SEGMENT : Regex.t :=
  Regex.Alt
    (Regex.Cat (Regex.Class (N.eqb 42)) (Regex.Opt (Regex.Class (N.eqb 42))))
    (Regex.Plus (Regex.Class segment_char)).

(** The thrown errors, by rule position and the check that failed (the
    message text is not modelled). *)
Inductive ValidationError :=
  | MatchNotNonEmptyString (i : nat)
  | InvalidSegment (i : nat) (seg : jsstring)
  | InvalidCacheControl (i : nat)
  | InvalidatesNotArray (i : nat)
  | InvalidatesEntry (i : nat)
  | InvalidDefault.

(** The body of the loop of [validatePolicies] for [policies[i]]. *)
Definition validatePolicy (i : nat) (p : SyncPolicy.t) : result ValidationError unit :=
  if negb (truthy (SyncPolicy.match_ p)) || negb (is_string (SyncPolicy.match_ p))
  then Throw (MatchNotNonEmptyString i)
  else
    let segments :=
      match SyncPolicy.match_ p with JStr m => split_dot m | _ => [] end in
    match find (fun seg => negb (Regex.test_anchored VALID_SEGMENT seg)) segments with
    | Some seg => Throw (InvalidSegment i seg)
    | None =>
      if is_defined (SyncPolicy.cacheControl p)
         && negb (has_directive (SyncPolicy.cacheControl p))
      then Throw (InvalidCacheControl i)
      else if is_defined (SyncPolicy.invalidates p) then
        match SyncPolicy.invalidates p with
        | JArr patterns =>
          if existsb (fun pattern => negb (truthy pattern) || negb (is_string pattern))
               patterns
          then Throw (InvalidatesEntry i)
          else Ok tt
        | _ => Throw (InvalidatesNotArray i)
        end
      else Ok tt
    end.

Fixpoint validateFrom (i : nat) (policies : list SyncPolicy.t)
    : result ValidationError unit :=
  match policies with
  | [] => Ok tt
  | p :: rest =>
    match validatePolicy i p with
    | Ok _ => validateFrom (S i) rest
    | Throw e => Throw e
    end
  end.

Definition validatePolicies (policies : list SyncPolicy.t) : result ValidationError unit :=
  validateFrom 0 policies.

(** [defaults?.cacheControl] *)
Definition defaults_cacheControl (defaults : option Defaults.t) : jsval :=
  match defaults with
  | Some d => Defaults.cacheControl d
  | None => JUndefined
  end.

Definition validateDefaults (defaults : option Defaults.t) : result ValidationError unit :=
  if is_defined (defaults_cacheControl defaults)
     && negb (has_directive (defaults_cacheControl defaults))
  then Throw InvalidDefault
  else Ok tt.

End PolicyValidator.

Import PolicyValidator.

(** ** PolicyEngine.ts *)

Module PolicyEngine.

(** The engine: its frozen rule list, the default directive, the
    resolution cache ([Map<string, ResolvedPolicy | null>]: a missing key
    reads [undefined], [Some None] is a cached [null]) and the identity the
    next allocated policy object gets. *)
Record t := mk {
  policies : list SyncPolicy.t;
  defaultCacheControl : jsval;
  cache : gmap jsstring (option ResolvedPolicy.t);
  nextId : nat;
}.

(** [new PolicyEngine(policies, defaults)] *)
Definition new (policies : list SyncPolicy.t) (defaults : option Defaults.t)
    : result ValidationError t :=
  match validatePolicies policies with
  | Throw e => Throw e
  | Ok _ =>
    match validateDefaults defaults with
    | Throw e => Throw e
    | Ok _ =>
      Ok {| policies := policies;
            defaultCacheControl := defaults_cacheControl defaults;
            cache := ∅;
            nextId := 0 |}
    end
  end.

(** A [CacheDirective | undefined] read at its declared type. *)
Definition as_directive (v : jsval) : outcome (option jsstring) :=
  match v with
  | JUndefined => Ret None
  | JStr s => Ret (Some s)
  | _ => IllTyped
  end.

(** A [readonly string[]] read at its declared type: [[...xs]]. *)
Fixpoint as_strings (xs : list jsval) : outcome (list jsstring) :=
  match xs with
  | [] => Ret []
  | JStr s :: rest =>
    match as_strings rest with
    | Ret l => Ret (s :: l)
    | IllTyped => IllTyped
    end
  | _ :: _ => IllTyped
  end.

(** [policy.invalidates?.length ? Object.freeze([...policy.invalidates]) : undefined] *)
Definition copy_invalidates (v : jsval) : outcome (option (list jsstring)) :=
  match v with
  | JUndefined | JNull => Ret None
  | JArr xs =>
    if negb (length xs =? 0) then
      match as_strings xs with
      | Ret l => Ret (Some l)
      | IllTyped => IllTyped
      end
    else Ret None
  | _ => IllTyped
  end.

(** The body of the loop of [resolveUncached] once [policy] has matched. *)
Definition resolveMatched (next : nat) (dflt : jsval) (policy : SyncPolicy.t)
    : outcome (option ResolvedPolicy.t) :=
  let cacheControl := nullish_or (SyncPolicy.cacheControl policy) dflt in
  match copy_invalidates (SyncPolicy.invalidates policy) with
  | IllTyped => IllTyped
  | Ret invalidates =>
    if negb (truthy cacheControl) && negb (bool_decide (is_Some invalidates))
    then Ret None
    else
      match as_directive cacheControl with
      | IllTyped => IllTyped
      | Ret directive => Ret (Some (ResolvedPolicy.mk next directive invalidates))
      end
  end.

(** [for (const policy of this.policies) ...] followed by the fallback to
    the default. *)
Fixpoint resolveLoop (next : nat) (dflt : jsval) (toolName : jsstring)
    (policies : list SyncPolicy.t) : outcome (option ResolvedPolicy.t) :=
  match policies with
  | policy :: rest =>
    match SyncPolicy.match_ policy with
    | JStr pattern =>
      if matchGlob pattern toolName then resolveMatched next dflt policy
      else resolveLoop next dflt toolName rest
    | _ => IllTyped
    end
  | [] =>
    if truthy dflt then
      match as_directive dflt with
      | IllTyped => IllTyped
      | Ret directive => Ret (Some (ResolvedPolicy.mk next directive None))
      end
    else Ret None
  end.

Definition resolveUncached (e : t) (toolName : jsstring)
    : outcome (option ResolvedPolicy.t) :=
  resolveLoop (nextId e) (defaultCacheControl e) toolName (policies e).

(** [resolve(toolName)]: the result and the engine after the call. *)
Definition resolve (e : t) (toolName : jsstring)
    : outcome (option ResolvedPolicy.t * t) :=
  match cache e !! toolName with
  | Some cached => Ret (cached, e)
  | None =>
    match resolveUncached e toolName with
    | IllTyped => IllTyped
    | Ret result =>
      Ret (result,
           {| policies := policies e;
              defaultCacheControl := defaultCacheControl e;
              cache := <[toolName := result]> (cache e);
              nextId := match result with Some _ => S (nextId e) | None => nextId e end |})
    end
  end.

(** The engines a program can hold: a constructed one, after any number
    of resolutions. *)
Inductive reachable (e0 : t) : t → Prop :=
  | reachable_new : reachable e0 e0
  | reachable_resolve e toolName r e' :
      reachable e0 e → resolve e toolName = Ret (r, e') → reachable e0 e'.

End PolicyEngine.

(** ** DescriptionDecorator.ts *)

Module McpToolDef.
Record t := mk {
  name : jsstring;
  description : option jsstring;   (* description?: string *)
  inputSchema : jsval;
  annotations : jsval;
}.
End McpToolDef.

Module DescriptionDecorator.

Import Regex.

Definition LBRACKET : N := 91%N.
Definition RBRACKET : N := 93%N.

(** [/\s*\[Cache-Control:\s*\w[^\]]*\]$/], without its final [$]. *)
Definition CACHE_CONTROL_PATTERN : Regex.t :=
  Cat (Star (Class space))
   (Cat (Lit (lit "[Cache-Control:"))
    (Cat (Star (Class space))
     (Cat (Class word)
      (Cat (Star (Class (fun c => negb (N.eqb c RBRACKET))))
           (Class (N.eqb RBRACKET)))))).

(** [` [Cache-Control: ${directive}]`] *)
Definition annotation (directive : jsstring) : jsstring :=
  lit " [Cache-Control: " ++ directive ++ lit "]".

(** [policy?.cacheControl], when truthy. *)
Definition directive_of (policy : option ResolvedPolicy.t) : option jsstring :=
  match policy with
  | Some p =>
    match ResolvedPolicy.cacheControl p with
    | Some d => if bool_decide (d = []) then None else Some d
    | None => None
    end
  | None => None
  end.

Definition decorateDescription (tool : McpToolDef.t) (policy : option ResolvedPolicy.t)
    : McpToolDef.t :=
  match directive_of policy with
  | None => tool
  | Some cacheControl =>
    let suffix := annotation cacheControl in
    let base :=
      replace_at_end CACHE_CONTROL_PATTERN (default [] (McpToolDef.description tool)) in
    let description := base ++ suffix in
    {| McpToolDef.name := McpToolDef.name tool;
       McpToolDef.description := Some description;
       McpToolDef.inputSchema := McpToolDef.inputSchema tool;
       McpToolDef.annotations := McpToolDef.annotations tool |}
  end.

End DescriptionDecorator.

(** ** CausalEngine.ts *)

Module CausalEngine.

Definition resolveInvalidations (policy : option ResolvedPolicy.t) (isError : bool)
    : list jsstring :=
  if isError then []
  else
    match policy with
    | Some p => default [] (ResolvedPolicy.invalidates p)
    | None => []
    end.

End CausalEngine.

(** ** ResponseDecorator.ts *)

(** A content block, [{ type: string; [key: string]: unknown }]. *)
Module ContentBlock.
Record t := mk {
  type : jsstring;
  props : list (jsstring * jsval);
}.
End ContentBlock.

(** Call results are mutable objects: they and their content arrays are
    cells of a heap, addressed by reference. *)
Module Heap.

Abbreviation loc := positive (only parsing).

Inductive cell :=
  | (** an [McpCallResult]: [content] is a reference to an array;
        [isError?: boolean]; any further own properties *)
    Result (content : loc) (isError : option bool) (rest : list (jsstring * jsval))
  | (** an array of content blocks *)
    Array (items : list ContentBlock.t).

Abbreviation t := (gmap positive cell) (only parsing).

(** Allocation of a new object. *)
Definition alloc (h : t) (c : cell) : loc * t :=
  let l := fresh (dom h) in (l, <[l := c]> h).

End Heap.

Module ResponseDecorator.

Import Heap.

Definition EM_DASH : N := 8212%N.

(** [`[System: Cache invalidated for ${domains} — caused by ${causedBy}]`] *)
Definition notice (domains causedBy : jsstring) : jsstring :=
  lit "[System: Cache invalidated for " ++ domains ++ lit " " ++ [EM_DASH]
  ++ lit " caused by " ++ causedBy ++ lit "]".

Definition systemBlock (patterns : list jsstring) (causedBy : jsstring) : ContentBlock.t :=
  let domains := join (lit ", ") patterns in
  {| ContentBlock.type := lit "text";
     ContentBlock.props := [(lit "text", JStr (notice domains causedBy))] |}.

(** [decorateResponse(result, patterns, causedBy)]: the reference to the
    returned object and the heap after the call. *)
Definition decorateResponse (h : Heap.t) (result : loc)
    (patterns : list jsstring) (causedBy : jsstring) : outcome (loc * Heap.t) :=
  match h !! result with
  | Some (Result content isError rest) =>
    match h !! content with
    | Some (Array items) =>
      let '(content', h1) := alloc h (Array (systemBlock patterns causedBy :: items)) in
      let '(result', h2) := alloc h1 (Result content' isError rest) in
      Ret (result', h2)
    | _ => IllTyped
    end
  | _ => IllTyped
  end.

End ResponseDecorator.

(** ** ServerWrapper.ts: the [tools/call] handler *)

Module ServerWrapper.

Import Heap PolicyEngine CausalEngine ResponseDecorator.

(** The handler registered for [CallToolRequestSchema], from the point
    where [upstream.callTool] has returned [result]. *)
Definition callToolHandler (engine : PolicyEngine.t) (h : Heap.t)
    (name : jsstring) (result : loc) : outcome (loc * Heap.t * PolicyEngine.t) :=
  match resolve engine name with
  | IllTyped => IllTyped
  | Ret (policy, engine') =>
    match h !! result with
    | Some (Result _ isError _) =>
      let invalidations := resolveInvalidations policy (default false isError) in
      if 0 <? length invalidations then
        match decorateResponse h result invalidations name with
        | Ret (result', h') => Ret (result', h', engine')
        | IllTyped => IllTyped
        end
      else Ret (result, h, engine')
    | _ => IllTyped
    end
  end.

End ServerWrapper.

(** ** ServerWrapper.ts: the [tools/list] handler *)

Module ListToolsHandler.

Import PolicyEngine DescriptionDecorator.

(** [tools.map(tool => decorateDescription(tool,
    this.policyEngine.resolve(tool.name)))], left to right, each
    resolution on the engine the one before left. *)
Fixpoint decorateTools (engine : PolicyEngine.t) (tools : list McpToolDef.t)
    : outcome (list McpToolDef.t * PolicyEngine.t) :=
  match tools with
  | [] => Ret ([], engine)
  | tool :: rest =>
    match resolve engine (McpToolDef.name tool) with
    | IllTyped => IllTyped
    | Ret (policy, engine1) =>
      let decorated := decorateDescription tool policy in
      match decorateTools engine1 rest with
      | IllTyped => IllTyped
      | Ret (others, engine2) => Ret (decorated :: others, engine2)
      end
    end
  end.

(** The handler registered for [ListToolsRequestSchema], from the point
    where [upstream.listTools()] has returned [{ tools }]. *)
Definition listToolsHandler (engine : PolicyEngine.t) (tools : list McpToolDef.t)
    : outcome (list McpToolDef.t * PolicyEngine.t) :=
  decorateTools engine tools.

End ListToolsHandler.

(** ** ServerResolver.ts *)

Module ServerResolver.

(** What [resolveServer] can be handed: any value.  Of an object only the
    two properties the function reads are kept, [None] when the object
    does not have the property. *)
#[warnings="-register-all"]
Inductive value :=
  | VUndefined
  | VNull
  | VBoolean (b : bool)
  | VNumber (z : Z)
  | VString (s : jsstring)
  | VFunction (id : nat)
  | VObject (id : nat) (server : option value) (setRequestHandler : option value).

(** [typeof v] *)
Definition typeof (v : value) : jsstring :=
  match v with
  | VUndefined => lit "undefined"
  | VNull => lit "object"
  | VBoolean _ => lit "boolean"
  | VNumber _ => lit "number"
  | VString _ => lit "string"
  | VFunction _ => lit "function"
  | VObject _ _ _ => lit "object"
  end.

(** [!!v] *)
Definition truthy (v : value) : bool :=
  match v with
  | VUndefined | VNull => false
  | VBoolean b => b
  | VNumber z => negb (Z.eqb z 0)
  | VString s => negb (bool_decide (s = []))
  | VFunction _ | VObject _ _ _ => true
  end.

(** ['server' in v] *)
Definition has_server (v : value) : bool :=
  match v with VObject _ (Some _) _ => true | _ => false end.

(** [v.server] *)
Definition get_server (v : value) : value :=
  match v with VObject _ (Some s) _ => s | _ => VUndefined end.

(** [v.setRequestHandler] *)
Definition get_setRequestHandler (v : value) : value :=
  match v with VObject _ _ (Some f) => f | _ => VUndefined end.

Definition NOT_A_SERVER (server : value) : jsstring :=
  lit "StateSync: expected a Server or McpServer instance, "
  ++ lit "received "
  ++ (match server with VNull => lit "null" | _ => typeof server end)
  ++ lit ".".

Definition NO_HANDLER : jsstring :=
  lit "StateSync: the provided object does not have setRequestHandler(). "
  ++ lit "Expected a Server or McpServer instance from @modelcontextprotocol/sdk.".

(** [resolveServer(server)]: the resolved server, or the message of the
    thrown [Error]. *)
Definition resolveServer (server : value) : result jsstring value :=
  if negb (truthy server) || negb (str_eqb (typeof server) (lit "object"))
  then Throw (NOT_A_SERVER server)
  else
    let candidate := server in
    if has_server candidate
       && truthy (get_server candidate)
       && str_eqb (typeof (get_server candidate)) (lit "object")
       && str_eqb (typeof (get_setRequestHandler (get_server candidate))) (lit "function")
    then Ok (get_server candidate)
    else if str_eqb (typeof (get_setRequestHandler server)) (lit "function")
    then Ok server
    else Throw NO_HANDLER.

End ServerResolver.

(** * Specification-level definitions *)

Module Spec.

Definition nonempty_string (v : jsval) : Prop := ∃ s, v = JStr s ∧ s ≠ [].

(** An optional directive: absent, or one of the two enumerated values. *)
Definition valid_directive_field (v : jsval) : Prop :=
  v = JUndefined ∨ v = JStr (lit "no-store") ∨ v = JStr (lit "immutable").

(** An invalidation list as validation leaves it: absent, or an array
    whose elements are all non-empty strings. *)
Definition valid_invalidates_field (v : jsval) : Prop :=
  v = JUndefined ∨ ∃ xs, v = JArr xs ∧ Forall nonempty_string xs.

Definition valid_match_field (v : jsval) : Prop :=
  ∃ m, v = JStr m ∧ m ≠ []
       ∧ Forall (fun seg => Regex.test_anchored VALID_SEGMENT seg = true) (split_dot m).

Definition valid_rule (p : SyncPolicy.t) : Prop :=
  valid_match_field (SyncPolicy.match_ p)
  ∧ valid_directive_field (SyncPolicy.cacheControl p)
  ∧ valid_invalidates_field (SyncPolicy.invalidates p).

(** The fields of a rule and of the default, read as the data model types
    them. *)
Definition rule_matches (name : jsstring) (rule : SyncPolicy.t) : bool :=
  match SyncPolicy.match_ rule with
  | JStr pattern => matchGlob pattern name
  | _ => false
  end.

Definition directive_field (v : jsval) : option jsstring :=
  match v with JStr d => Some d | _ => None end.

Definition patterns_field (v : jsval) : option (list jsstring) :=
  match v with
  | JArr xs =>
    match PolicyEngine.as_strings xs with
    | Ret l => Some l
    | IllTyped => None
    end
  | _ => None
  end.

(** Resolution as the specification words it: the first rule, in declared
    order, whose pattern matches; the rule's directive or else the
    default's; the rule's list when it is not empty; no policy when both
    are absent; without a matching rule, the default directive alone, or
    no policy. *)
Definition resolve_spec (rules : list SyncPolicy.t) (defaults : option Defaults.t)
    (name : jsstring) : option (option jsstring * option (list jsstring)) :=
  let default_directive := directive_field (defaults_cacheControl defaults) in
  match find (rule_matches name) rules with
  | Some rule =>
    let directive :=
      match directive_field (SyncPolicy.cacheControl rule) with
      | Some d => Some d
      | None => default_directive
      end in
    let invalidatesPatterns :=
      match patterns_field (SyncPolicy.invalidates rule) with
      | Some (x :: l) => Some (x :: l)
      | _ => None
      end in
    match directive, invalidatesPatterns with
    | None, None => None
    | _, _ => Some (directive, invalidatesPatterns)
    end
  | None =>
    match default_directive with
    | Some d => Some (Some d, None)
    | None => None
    end
  end.

(** The frozen object with identity [k] that holds a resolved value. *)
Definition with_id (k : nat) (v : option (option jsstring * option (list jsstring)))
    : option ResolvedPolicy.t :=
  (fun v => ResolvedPolicy.mk k v.1 v.2) <$> v.

(** The invariant of the cache: every entry is the outcome of an uncached
    resolution of its key. *)
Definition cache_sound (e : PolicyEngine.t) : Prop :=
  ∀ n r, PolicyEngine.cache e !! n = Some r →
    ∃ k, PolicyEngine.resolveLoop k (PolicyEngine.defaultCacheControl e) n
           (PolicyEngine.policies e) = Ret r.

End Spec.

Import Spec.

(** ** Definitions for the further properties *)

Module Observe.

(** The rule position a validation error reports. *)
Definition error_position (e : ValidationError) : option nat :=
  match e with
  | MatchNotNonEmptyString i | InvalidSegment i _ | InvalidCacheControl i
  | InvalidatesNotArray i | InvalidatesEntry i => Some i
  | InvalidDefault => None
  end.

(** A rule with its [invalidates] removed when it is the empty array. *)
Definition without_empty_invalidates (p : SyncPolicy.t) : SyncPolicy.t :=
  match SyncPolicy.invalidates p with
  | JArr [] => SyncPolicy.mk (SyncPolicy.match_ p) (SyncPolicy.cacheControl p) JUndefined
  | _ => p
  end.

(** Every cached policy object was allocated before the next identity. *)
Definition cache_ids_bounded (e : PolicyEngine.t) : Prop :=
  ∀ n p, PolicyEngine.cache e !! n = Some (Some p) →
    ResolvedPolicy.id p < PolicyEngine.nextId e.

(** No policy object is cached under two names. *)
Definition cache_ids_distinct (e : PolicyEngine.t) : Prop :=
  ∀ n1 n2 p1 p2,
    PolicyEngine.cache e !! n1 = Some (Some p1) →
    PolicyEngine.cache e !! n2 = Some (Some p2) →
    ResolvedPolicy.id p1 = ResolvedPolicy.id p2 → n1 = n2.

End Observe.

Import Observe.

(** A scanner for the detection pattern, used to reason about repeated
    decoration: a deterministic automaton that reads a string from the
    left.  It is shown to accept what the pattern matches (lemma
    [run_lang]); no statement about the code depends on it. *)
Module Scanner.

Import Regex DescriptionDecorator.

(** What follows the opening bracket in the pattern's literal. *)
Definition LITERAL_REST : jsstring := lit "Cache-Control:".

Inductive state :=
  | Leading                        (* in the white space before the bracket *)
  | InLiteral (rest : jsstring)    (* bracket read, [rest] of the literal to
                                      come; with nothing to come, in the white
                                      space after the colon *)
  | Body                           (* in the directive text *)
  | Done                           (* closing bracket read *)
  | Dead.

Definition step (q : state) (c : N) : state :=
  match q with
  | Leading =>
    if space c then Leading
    else if N.eqb LBRACKET c then InLiteral LITERAL_REST
    else Dead
  | InLiteral (x :: rest) => if N.eqb x c then InLiteral rest else Dead
  | InLiteral [] =>
    if space c then InLiteral []
    else if word c then Body
    else Dead
  | Body => if N.eqb RBRACKET c then Done else Body
  | Done => Dead
  | Dead => Dead
  end.

Definition run (q : state) (s : jsstring) : state := foldl step q s.

Fixpoint LitThen (l : jsstring) (r : Regex.t) : Regex.t :=
  match l with
  | [] => r
  | c :: l' => Cat (Class (N.eqb c)) (LitThen l' r)
  end.

Definition BODY : Regex.t :=
  Cat (Star (Class (fun c => negb (N.eqb c RBRACKET)))) (Class (N.eqb RBRACKET)).

Definition TAIL : Regex.t :=
  Cat (Star (Class space)) (Cat (Class word) BODY).

(** The strings that lead a state to [Done]. *)
Definition lang (q : state) : Regex.t :=
  match q with
  | Leading => CACHE_CONTROL_PATTERN
  | InLiteral rest => LitThen rest TAIL
  | Body => BODY
  | Done => Eps
  | Dead => Fail
  end.

Definition wf (q : state) : Prop :=
  match q with
  | InLiteral rest => rest `suffix_of` LITERAL_REST
  | _ => True
  end.

End Scanner.

(** * Properties *)

Import PolicyEngine DescriptionDecorator CausalEngine ResponseDecorator ServerWrapper.

(** ** The matcher refines the segment-consumption semantics *)

Section GlobMatcherFacts.

Implicit Types (ps ns pp np : list jsstring) (p n seg : jsstring).

Lemma opt_str_eqb_Some p n : opt_str_eqb (Some p) (Some n) = str_eqb p n.
Proof. unfold opt_str_eqb, str_eqb. apply bool_decide_ext. naive_solver. Qed.

Lemma str_eqb_true p n : str_eqb p n = true ↔ p = n.
Proof. unfold str_eqb. apply bool_decide_eq_true. Qed.

Lemma str_eqb_false p n : str_eqb p n = false ↔ p ≠ n.
Proof. unfold str_eqb. apply bool_decide_eq_false. Qed.

Lemma spec_matches_nil_r ps :
  spec_matches ps [] = forallb (fun seg => str_eqb seg DSTAR) ps.
Proof. destruct ps; reflexivity. Qed.

Lemma spec_matches_cons p ps n ns :
  spec_matches (p :: ps) (n :: ns) =
    if str_eqb p DSTAR then spec_matches ps (n :: ns) || spec_matches (p :: ps) ns
    else if str_eqb p STAR then spec_matches ps ns
    else if str_eqb p n then spec_matches ps ns
    else false.
Proof. reflexivity. Qed.

(** At every index pair the source can reach, enough fuel gives the
    result, and the result is the semantics of the two remaining
    suffixes. *)
Lemma matchSegments_spec fuel : ∀ pp np pi ni,
  pi ≤ length pp → ni ≤ length np →
  (length pp - pi) + (length np - ni) < fuel →
  matchSegments fuel pp pi np ni
    = Some (spec_matches (drop pi pp) (drop ni np)).
Proof.
  induction fuel as [|fuel IH]; intros pp np pi ni Hpi Hni Hfuel; [lia|].
  cbn [matchSegments].
  destruct (Nat.eqb_spec pi (length pp)) as [->|Hp].
  - rewrite drop_all.
    destruct (Nat.eqb_spec ni (length np)) as [->|Hn]; cbn [andb].
    + by rewrite drop_all.
    + destruct (lookup_lt_is_Some_2 np ni ltac:(lia)) as [n Hn'].
      by rewrite (drop_S _ _ _ Hn').
  - cbn [andb].
    destruct (lookup_lt_is_Some_2 pp pi ltac:(lia)) as [p Hp'].
    destruct (Nat.eqb_spec ni (length np)) as [->|Hn].
    + by rewrite (drop_all np), spec_matches_nil_r.
    + destruct (lookup_lt_is_Some_2 np ni ltac:(lia)) as [n Hn'].
      rewrite (drop_S _ _ _ Hp'), (drop_S _ _ _ Hn'), spec_matches_cons.
      cbn zeta. rewrite Hp', Hn', !opt_str_eqb_Some.
      replace (pi + 1) with (S pi) by lia.
      replace (ni + 1) with (S ni) by lia.
      destruct (str_eqb p DSTAR) eqn:HD.
      * rewrite (IH pp np (S pi) ni) by lia.
        rewrite (IH pp np pi (S ni)) by lia.
        rewrite (drop_S _ _ _ Hn'), (drop_S _ _ _ Hp').
        by destruct (spec_matches (drop (S pi) pp) (n :: drop (S ni) np)).
      * destruct (str_eqb p STAR); cbn [orb].
        -- apply IH; lia.
        -- destruct (str_eqb p n); [apply IH; lia | done].
Qed.

Lemma matchSegments_total pp np :
  matchSegments (matchFuel pp np) pp 0 np 0 = Some (spec_matches pp np).
Proof.
  unfold matchFuel. rewrite matchSegments_spec by lia. by rewrite !drop_0.
Qed.

Lemma matchGlob_spec pattern name :
  matchGlob pattern name = spec_matches (split_dot pattern) (split_dot name).
Proof. unfold matchGlob. cbn zeta. by rewrite matchSegments_total. Qed.

Lemma spec_matches_dstar ps ns :
  spec_matches (DSTAR :: ps) ns = true ↔
  ∃ k, k ≤ length ns ∧ spec_matches ps (drop k ns) = true.
Proof.
  induction ns as [|n ns IH].
  - rewrite spec_matches_nil_r. cbn [forallb].
    replace (str_eqb DSTAR DSTAR) with true by (symmetry; by apply str_eqb_true).
    cbn [andb]. rewrite <- spec_matches_nil_r. split.
    + intros H. exists 0. by rewrite drop_0.
    + intros (k & _ & H). by rewrite drop_nil in H.
  - rewrite spec_matches_cons.
    replace (str_eqb DSTAR DSTAR) with true by (symmetry; by apply str_eqb_true).
    rewrite orb_true_iff, IH. split.
    + intros [H | (k & Hk & H)].
      * exists 0. split; [lia | by rewrite drop_0].
      * exists (S k). split; [cbn; lia | done].
    + intros ([|k] & Hk & H).
      * left. by rewrite drop_0 in H.
      * right. exists k. split; [cbn in Hk; lia | done].
Qed.

Lemma spec_matches_wildcard_free ps : ∀ ns,
  wildcard_free ps → (spec_matches ps ns = true ↔ ps = ns).
Proof.
  induction ps as [|p ps IH]; intros ns Hwf.
  - destruct ns; cbn; split; congruence.
  - apply Forall_cons in Hwf as [[HS HD] Hwf].
    apply str_eqb_false in HS, HD.
    destruct ns as [|n ns].
    + rewrite spec_matches_nil_r. cbn [forallb]. rewrite HD. cbn. split; congruence.
    + rewrite spec_matches_cons, HD, HS.
      destruct (str_eqb p n) eqn:Hpn.
      * apply str_eqb_true in Hpn as ->. rewrite (IH ns Hwf). split; congruence.
      * apply str_eqb_false in Hpn. split; congruence.
Qed.

End GlobMatcherFacts.

Example matchGlob_ex1 : matchGlob (lit "sprints.*") (lit "sprints.get") = true.
Proof. vm_compute. reflexivity. Qed.
Example matchGlob_ex2 : matchGlob (lit "**.get") (lit "a.b.c.update") = false.
Proof. vm_compute. reflexivity. Qed.


(** C3. The pattern matcher implements the recursive segment-consumption
    semantics of the specification.  For every pattern and name, both
    split on the dot, [matchGlob] returns what the semantics [spec_matches]
    gives on the two segment sequences, whose cases are: two exhausted
    sequences match; an exhausted pattern with name segments left fails;
    an exhausted name matches iff every remaining pattern segment is the
    double star; a double star matches zero or more whole name segments;
    a single star consumes exactly one name segment whatever it is; a
    literal segment consumes one name segment iff the two are equal.
    [matchGlob('a.**','a')] is true, [matchGlob('a.*','a.b.c')] is false,
    and a pattern without wildcards matches iff it is segment-wise equal
    to the name. *)
Theorem matchGlob_segment_semantics (pattern name : jsstring) :
  matchGlob pattern name = spec_matches (split_dot pattern) (split_dot name)
  ∧ spec_matches [] [] = true
  ∧ (∀ n ns, spec_matches [] (n :: ns) = false)
  ∧ (∀ ps, spec_matches ps [] = true ↔ Forall (fun seg => seg = DSTAR) ps)
  ∧ (∀ ps ns, spec_matches (DSTAR :: ps) ns = true ↔
              ∃ k, k ≤ length ns ∧ spec_matches ps (drop k ns) = true)
  ∧ (∀ ps n ns, spec_matches (STAR :: ps) (n :: ns) = spec_matches ps ns)
  ∧ (∀ p ps n ns, p ≠ STAR → p ≠ DSTAR →
       spec_matches (p :: ps) (n :: ns) = (str_eqb p n && spec_matches ps ns))
  ∧ matchGlob (lit "a.**") (lit "a") = true
  ∧ matchGlob (lit "a.*") (lit "a.b.c") = false
  ∧ (wildcard_free (split_dot pattern) →
       (matchGlob pattern name = true ↔ split_dot pattern = split_dot name)).
Proof.
  split; [apply matchGlob_spec|].
  split; [reflexivity|].
  split; [reflexivity|].
  split.
  { intros ps. rewrite spec_matches_nil_r, forallb_forall, Forall_forall.
    split; intros H seg Hin.
    - apply str_eqb_true, H. by apply list_elem_of_In.
    - apply str_eqb_true, H. by apply list_elem_of_In. }
  split; [apply spec_matches_dstar|].
  split.
  { intros ps n ns. rewrite spec_matches_cons.
    replace (str_eqb STAR DSTAR) with false by (symmetry; by apply str_eqb_false).
    replace (str_eqb STAR STAR) with true by (symmetry; by apply str_eqb_true).
    done. }
  split.
  { intros p ps n ns HS HD. rewrite spec_matches_cons.
    apply str_eqb_false in HS, HD. rewrite HS, HD.
    by destruct (str_eqb p n). }
  split; [by vm_compute|].
  split; [by vm_compute|].
  intros Hwf. rewrite matchGlob_spec. by apply spec_matches_wildcard_free.
Qed.

Lemma matchGlob_segment_semantics_witness :
  wildcard_free (split_dot (lit "sprints.get"))
  ∧ (matchGlob (lit "sprints.get") (lit "sprints.update") = true ↔
     split_dot (lit "sprints.get") = split_dot (lit "sprints.update")).
Proof.
  assert (Hwf : wildcard_free (split_dot (lit "sprints.get"))).
  { repeat constructor; discriminate. }
  split; [exact Hwf|].
  exact (proj2 (proj2 (proj2 (proj2 (proj2 (proj2 (proj2 (proj2 (proj2
    (matchGlob_segment_semantics (lit "sprints.get") (lit "sprints.update"))))))))))
    Hwf).
Defined.

(** ** Causal engine *)

(** C2. Failed-call guard: for every policy, the absent policy included,
    and whatever its [invalidates] holds, [resolveInvalidations] with
    [isError = true] returns the empty sequence; with [isError = false] it
    returns the policy's [invalidates] when present and the empty sequence
    otherwise.  The function is total: no input makes it throw. *)
Theorem resolveInvalidations_guard (policy : option ResolvedPolicy.t) :
  resolveInvalidations policy true = []
  ∧ resolveInvalidations policy false =
      match policy with
      | Some p =>
        match ResolvedPolicy.invalidates p with
        | Some patterns => patterns
        | None => []
        end
      | None => []
      end.
Proof. split; [reflexivity|]. by destruct policy as [[? ? [?|]]|]. Qed.

Example resolveInvalidations_failed :
  resolveInvalidations (Some (ResolvedPolicy.mk 0 None (Some [lit "a.*"]))) true = [].
Proof. reflexivity. Qed.
Example resolveInvalidations_succeeded :
  resolveInvalidations (Some (ResolvedPolicy.mk 0 None (Some [lit "a.*"]))) false
  = [lit "a.*"].
Proof. reflexivity. Qed.

(** ** Validation *)

Section ValidatorFacts.

Lemma find_None_Forall {A} (f : A → bool) (l : list A) :
  find f l = None ↔ Forall (fun x => f x = false) l.
Proof.
  induction l as [|x l IH]; cbn.
  - split; [constructor | done].
  - destruct (f x) eqn:Hx.
    + split; [done|]. intros H. apply Forall_cons in H as [H _]. congruence.
    + rewrite IH. split; [by constructor | by intros [_ ?]%Forall_cons].
Qed.

Lemma existsb_false_Forall {A} (f : A → bool) (l : list A) :
  existsb f l = false ↔ Forall (fun x => f x = false) l.
Proof.
  induction l as [|x l IH]; cbn.
  - split; [constructor | done].
  - rewrite orb_false_iff, IH. split; [intros [??]; by constructor|].
    by intros [??]%Forall_cons.
Qed.

Lemma nonempty_string_check (v : jsval) :
  negb (truthy v) || negb (is_string v) = false ↔ nonempty_string v.
Proof.
  unfold nonempty_string. destruct v as [| |b|z|s|xs|]; cbn;
    try (split; [try destruct b; try destruct (Z.eqb z 0); done | by intros (? & ? & ?)]).
  rewrite orb_false_r, negb_involutive. rewrite bool_decide_eq_false.
  split; [eauto | by intros (? & [= ->] & ?)].
Qed.

Lemma has_directive_spec (v : jsval) :
  has_directive v = true ↔ v = JStr (lit "no-store") ∨ v = JStr (lit "immutable").
Proof.
  destruct v as [| |b|z|s|xs|]; cbn; try (split; [done | by intros [?|?]]).
  rewrite bool_decide_eq_true. unfold VALID_DIRECTIVES.
  rewrite !elem_of_cons, elem_of_nil. split.
  - intros [->| [->|[]]]; auto.
  - intros [[= ->]|[= ->]]; auto.
Qed.

Lemma directive_check (v : jsval) :
  is_defined v && negb (has_directive v) = false ↔ valid_directive_field v.
Proof.
  unfold valid_directive_field.
  destruct (has_directive v) eqn:H.
  - rewrite andb_false_r. apply has_directive_spec in H. tauto.
  - rewrite andb_true_r. split.
    + destruct v; cbn; auto; discriminate.
    + intros [->|H']; [done|]. apply has_directive_spec in H'. congruence.
Qed.

Lemma validatePolicy_Ok (i : nat) (p : SyncPolicy.t) :
  validatePolicy i p = Ok tt ↔ valid_rule p.
Proof.
  unfold validatePolicy, valid_rule, valid_match_field, valid_invalidates_field.
  destruct p as [m cc inv]; cbn [SyncPolicy.match_ SyncPolicy.cacheControl SyncPolicy.invalidates].
  destruct (negb (truthy m) || negb (is_string m)) eqn:Hm.
  { split; [done|]. intros [(s & -> & Hs & _) _].
    assert (nonempty_string (JStr s)) as H%nonempty_string_check by (red; eauto).
    congruence. }
  apply nonempty_string_check in Hm as (s & -> & Hs).
  destruct (find _ (split_dot s)) as [seg|] eqn:Hfind.
  { split; [done|]. intros [(s' & [= <-] & _ & Hall) _].
    apply find_some in Hfind as [Hin Hbad].
    rewrite Forall_forall in Hall. apply list_elem_of_In, Hall in Hin.
    unfold Regex.test_anchored in *. rewrite Hin in Hbad. done. }
  apply find_None_Forall in Hfind.
  assert (Hsegs : Forall (fun seg => Regex.test_anchored VALID_SEGMENT seg = true) (split_dot s)).
  { eapply Forall_impl; [exact Hfind|]. cbn. intros seg. by destruct (Regex.test_anchored _ _). }
  destruct (is_defined cc && negb (has_directive cc)) eqn:Hcc.
  { split; [done|]. intros (_ & Hd%directive_check & _). congruence. }
  apply directive_check in Hcc.
  destruct inv as [| |b|z|s'|xs|]; cbn [is_defined];
    try (split; [done | intros (_ & _ & [?|(? & ? & _)]); done]).
  - split; [|done]. intros _. split_and!; eauto.
  - destruct (existsb _ xs) eqn:Hex.
    + split; [done|]. intros (_ & _ & [?|(xs' & [= <-] & Hall)]); [done|].
      assert (existsb (fun pattern => negb (truthy pattern) || negb (is_string pattern)) xs = false)
        as Hno; [|congruence].
      apply existsb_false_Forall. eapply Forall_impl; [exact Hall|].
      intros v. apply nonempty_string_check.
    + split; [|done]. intros _. split_and!; eauto. right. exists xs. split; [done|].
      apply existsb_false_Forall in Hex. eapply Forall_impl; [exact Hex|].
      intros v. apply nonempty_string_check.
Qed.

Lemma validateFrom_Ok (policies : list SyncPolicy.t) : ∀ i,
  validateFrom i policies = Ok tt ↔ Forall valid_rule policies.
Proof.
  induction policies as [|p ps IH]; intros i; cbn.
  - split; [constructor | done].
  - destruct (validatePolicy i p) as [[]|e] eqn:Hp.
    + apply validatePolicy_Ok in Hp. rewrite IH.
      split; [by constructor | by intros [_ ?]%Forall_cons].
    + split; [done|]. intros [Hv%(validatePolicy_Ok i) _]%Forall_cons. congruence.
Qed.

Lemma validateDefaults_Ok (defaults : option Defaults.t) :
  validateDefaults defaults = Ok tt
  ↔ valid_directive_field (defaults_cacheControl defaults).
Proof.
  unfold validateDefaults. rewrite <- directive_check.
  destruct (is_defined _ && _); split; done.
Qed.

(** Construction succeeds exactly on the valid configurations, and then
    the engine holds the rules as given and an empty cache. *)
Lemma new_Ok (policies : list SyncPolicy.t) (defaults : option Defaults.t) e :
  PolicyEngine.new policies defaults = Ok e
  ↔ Forall valid_rule policies
    ∧ valid_directive_field (defaults_cacheControl defaults)
    ∧ e = PolicyEngine.mk policies (defaults_cacheControl defaults) ∅ 0.
Proof.
  unfold PolicyEngine.new, validatePolicies.
  destruct (validateFrom 0 policies) as [[]|err] eqn:Hp.
  - apply validateFrom_Ok in Hp.
    destruct (validateDefaults defaults) as [[]|err] eqn:Hd.
    + apply validateDefaults_Ok in Hd. split; [intros [= <-]; done | by intros (_ & _ & ->)].
    + split; [done|]. intros (_ & Hv%validateDefaults_Ok & _). congruence.
  - split; [done|]. intros (Hv%(validateFrom_Ok _ 0) & _). congruence.
Qed.

End ValidatorFacts.

(** C7 as stated fails: a rule whose [invalidates] is present and is the
    empty array passes validation, and the engine is constructed. *)
Lemma new_accepts_empty_invalidates :
  let rule := SyncPolicy.mk (JStr (lit "sprints.update")) JUndefined (JArr []) in
  is_defined (SyncPolicy.invalidates rule) = true
  ∧ ¬ (∃ xs, SyncPolicy.invalidates rule = JArr xs ∧ xs ≠ []
             ∧ Forall nonempty_string xs)
  ∧ PolicyEngine.new [rule] None
    = Ok (PolicyEngine.mk [rule] JUndefined ∅ 0).
Proof.
  cbn zeta. split; [reflexivity|]. split.
  - intros (xs & [= <-] & Hne & _). by apply Hne.
  - by vm_compute.
Qed.

(** C7, amended. For every rule of the configuration whose [invalidates]
    field is present, engine construction fails unless that field is an
    array all of whose elements are non-empty strings; the array itself
    may be empty. *)
Theorem new_validates_invalidates
    (policies : list SyncPolicy.t) (defaults : option Defaults.t)
    (e : PolicyEngine.t) (rule : SyncPolicy.t) :
  PolicyEngine.new policies defaults = Ok e →
  rule ∈ policies →
  is_defined (SyncPolicy.invalidates rule) = true →
  ∃ xs, SyncPolicy.invalidates rule = JArr xs ∧ Forall nonempty_string xs.
Proof.
  intros (Hall & _ & _)%new_Ok Hin Hdef.
  rewrite Forall_forall in Hall.
  destruct (Hall _ Hin) as (_ & _ & [Hu | Harr]); [|done].
  rewrite Hu in Hdef. discriminate.
Qed.

Lemma new_validates_invalidates_witness :
  ∃ xs, JArr [JStr (lit "tasks.*"); JStr (lit "sprints.*")] = JArr xs
        ∧ Forall nonempty_string xs.
Proof.
  pose (rule := SyncPolicy.mk (JStr (lit "tasks.update")) JUndefined
                  (JArr [JStr (lit "tasks.*"); JStr (lit "sprints.*")])).
  apply (new_validates_invalidates [rule] None
           (PolicyEngine.mk [rule] JUndefined ∅ 0) rule).
  - vm_compute. reflexivity.
  - apply list_elem_of_here.
  - reflexivity.
Defined.

(** ** Policy engine *)

Section EngineFacts.

Lemma value_with_id k v : ResolvedPolicy.value <$> with_id k v = v.
Proof. by destruct v as [[??]|]. Qed.

Lemma as_strings_valid (xs : list jsval) :
  Forall nonempty_string xs →
  ∃ l, as_strings xs = Ret l ∧ length l = length xs.
Proof.
  induction 1 as [|v xs (s & -> & _) _ (l & IH & Hlen)]; cbn.
  - by exists [].
  - rewrite IH. exists (s :: l). cbn. by rewrite Hlen.
Qed.

Lemma copy_invalidates_valid (v : jsval) :
  valid_invalidates_field v →
  copy_invalidates v =
    Ret (match patterns_field v with
         | Some (x :: l) => Some (x :: l)
         | _ => None
         end).
Proof.
  intros [-> | (xs & -> & Hall)]; [done|].
  destruct (as_strings_valid xs Hall) as (l & Hl & Hlen).
  unfold copy_invalidates, patterns_field. rewrite Hl.
  destruct xs as [|x xs]; cbn [length Nat.eqb negb].
  - by destruct l.
  - destruct l; [done|]. done.
Qed.

Lemma valid_directive_cases (v : jsval) :
  valid_directive_field v →
  (v = JUndefined ∧ truthy v = false ∧ as_directive v = Ret None
     ∧ directive_field v = None)
  ∨ (∃ d, v = JStr d ∧ truthy v = true ∧ as_directive v = Ret (Some d)
          ∧ directive_field v = Some d).
Proof.
  intros [-> | [-> | ->]]; [left | right; eexists | right; eexists]; done.
Qed.

Variables (rules : list SyncPolicy.t) (defaults : option Defaults.t).
Hypothesis defaults_valid : valid_directive_field (defaults_cacheControl defaults).

Lemma resolveMatched_valid (k : nat) (rule : SyncPolicy.t) :
  valid_rule rule →
  resolveMatched k (defaults_cacheControl defaults) rule =
    Ret (with_id k
      (let directive :=
         match directive_field (SyncPolicy.cacheControl rule) with
         | Some d => Some d
         | None => directive_field (defaults_cacheControl defaults)
         end in
       let invalidatesPatterns :=
         match patterns_field (SyncPolicy.invalidates rule) with
         | Some (x :: l) => Some (x :: l)
         | _ => None
         end in
       match directive, invalidatesPatterns with
       | None, None => None
       | _, _ => Some (directive, invalidatesPatterns)
       end)).
Proof.
  intros (_ & Hcc & Hinv). unfold resolveMatched.
  rewrite (copy_invalidates_valid _ Hinv). cbn zeta.
  set (inv := match patterns_field _ with Some (x :: l) => Some (x :: l) | _ => None end).
  destruct (valid_directive_cases _ Hcc) as [(-> & _ & _ & ->) | (d & -> & Ht & Ha & ->)].
  - cbn [nullish_or].
    destruct (valid_directive_cases _ defaults_valid)
      as [(-> & Ht & Ha & ->) | (d & -> & Ht & Ha & ->)]; rewrite Ht, ?Ha; cbn [negb andb].
    + destruct inv as [l|]; case_bool_decide as Hs; cbn; try done.
      all: first [by destruct Hs | exfalso; apply Hs; eauto].
    + by destruct inv.
  - cbn [nullish_or]. rewrite Ht, Ha. cbn [negb andb]. by destruct inv.
Qed.

Lemma resolveLoop_valid (k : nat) (name : jsstring) :
  ∀ ps, Forall valid_rule ps →
  resolveLoop k (defaults_cacheControl defaults) name ps
  = Ret (with_id k (resolve_spec ps defaults name)).
Proof.
  induction 1 as [|rule ps Hrule _ IH].
  - cbn. destruct (valid_directive_cases _ defaults_valid)
      as [(-> & Ht & Ha & ->) | (d & -> & Ht & Ha & ->)]; by rewrite Ht, ?Ha.
  - cbn [resolveLoop]. pose proof Hrule as ((m & Hm & _ & _) & _ & _).
    rewrite Hm. unfold resolve_spec. cbn [find]. unfold rule_matches at 1. rewrite Hm.
    destruct (matchGlob m name).
    + by apply resolveMatched_valid.
    + exact IH.
Qed.

Lemma resolve_preserves (e e' : PolicyEngine.t) name r :
  resolve e name = Ret (r, e') →
  policies e' = policies e ∧ defaultCacheControl e' = defaultCacheControl e
  ∧ cache e ⊆ cache e' ∧ cache e' !! name = Some r
  ∧ (cache_sound e → cache_sound e').
Proof.
  unfold resolve. destruct (cache e !! name) as [cached|] eqn:Hc.
  - intros [= <- <-]. done.
  - unfold resolveUncached. destruct (resolveLoop _ _ _ _) as [result|] eqn:Hr; [|done].
    intros [= <- <-]. cbn. split_and!; try done.
    + by apply insert_subseteq.
    + by rewrite lookup_insert_eq.
    + intros Hs n r'. cbn. destruct (decide (name = n)) as [<-|Hne].
      * rewrite lookup_insert_eq. intros [= <-]. eauto.
      * rewrite lookup_insert_ne by done. apply Hs.
Qed.

Lemma reachable_preserves (e0 e : PolicyEngine.t) :
  reachable e0 e →
  policies e = policies e0 ∧ defaultCacheControl e = defaultCacheControl e0
  ∧ cache e0 ⊆ cache e ∧ (cache_sound e0 → cache_sound e).
Proof.
  induction 1 as [|e name r e' _ (IHp & IHd & IHc & IHs) Hstep]; [done|].
  apply resolve_preserves in Hstep as (Hp & Hd & Hc & _ & Hs).
  split_and!; [congruence | congruence | by etrans | auto].
Qed.

(** Resolution on a constructed engine never fails and gives what the
    specification describes, whatever has been resolved before. *)
Lemma resolve_reachable (e0 e : PolicyEngine.t) (name : jsstring) :
  PolicyEngine.new rules defaults = Ok e0 →
  reachable e0 e →
  ∃ r e', resolve e name = Ret (r, e')
          ∧ ResolvedPolicy.value <$> r = resolve_spec rules defaults name.
Proof.
  intros (Hall & _ & ->)%new_Ok Hreach.
  apply reachable_preserves in Hreach as (Hp & Hd & _ & Hs). cbn in Hp, Hd.
  unfold resolve. destruct (cache e !! name) as [cached|] eqn:Hc.
  - exists cached, e. split; [done|].
    destruct Hs with name cached as (k & Hk); [by intros ?? | done |].
    rewrite Hp, Hd, resolveLoop_valid in Hk by done.
    injection Hk as <-. apply value_with_id.
  - unfold resolveUncached. rewrite Hp, Hd, resolveLoop_valid by done.
    eexists _, _. split; [done|]. apply value_with_id.
Qed.

End EngineFacts.

(** C1. Policy resolution is first-match-wins with default fallback. On
    every validly constructed engine, in whatever state earlier
    resolutions left it, and for every operation name, [resolve] returns
    the policy of the first rule, in declaration order, whose pattern
    matches the name: its directive is the rule's or else the default's,
    its invalidation list is a copy of the rule's when that is non-empty
    and absent otherwise, and the resolution is absent when both are
    absent; when no rule matches it is the default directive alone if one
    is set and absent otherwise ([resolve_spec]). *)
Theorem resolve_first_match_wins
    (rules : list SyncPolicy.t) (defaults : option Defaults.t)
    (e0 e : PolicyEngine.t) (name : jsstring) :
  PolicyEngine.new rules defaults = Ok e0 →
  reachable e0 e →
  ∃ r e', resolve e name = Ret (r, e')
          ∧ ResolvedPolicy.value <$> r = resolve_spec rules defaults name.
Proof.
  intros Hnew Hreach.
  pose proof Hnew as (_ & Hd & _)%new_Ok.
  by eapply resolve_reachable.
Qed.

Lemma resolve_first_match_wins_witness :
  let rules := [SyncPolicy.mk (JStr (lit "a.b")) (JStr (lit "immutable")) JUndefined;
                SyncPolicy.mk (JStr (lit "a.*")) (JStr (lit "no-store")) JUndefined] in
  let e0 := PolicyEngine.mk rules JUndefined ∅ 0 in
  ∃ r e', resolve e0 (lit "a.c") = Ret (r, e')
          ∧ ResolvedPolicy.value <$> r = resolve_spec rules None (lit "a.c").
Proof.
  intros rules e0.
  apply (resolve_first_match_wins rules None e0 e0 (lit "a.c")).
  - vm_compute. reflexivity.
  - apply reachable_new.
Defined.

Example resolve_spec_first_rule :
  resolve_spec
    [SyncPolicy.mk (JStr (lit "a.b")) (JStr (lit "immutable")) JUndefined;
     SyncPolicy.mk (JStr (lit "a.*")) (JStr (lit "no-store")) JUndefined]
    None (lit "a.b")
  = Some (Some (lit "immutable"), None).
Proof. by vm_compute. Qed.

Example resolve_spec_second_rule :
  resolve_spec
    [SyncPolicy.mk (JStr (lit "a.b")) (JStr (lit "immutable")) JUndefined;
     SyncPolicy.mk (JStr (lit "a.*")) (JStr (lit "no-store")) JUndefined]
    None (lit "a.c")
  = Some (Some (lit "no-store"), None).
Proof. by vm_compute. Qed.

Example resolve_spec_default_directive_with_list :
  resolve_spec
    [SyncPolicy.mk (JStr (lit "sprints.update")) JUndefined (JArr [JStr (lit "sprints.*")])]
    (Some (Defaults.mk (JStr (lit "no-store")))) (lit "sprints.update")
  = Some (Some (lit "no-store"), Some [lit "sprints.*"]).
Proof. by vm_compute. Qed.

(** C6. Resolution caching. On every validly constructed engine, in any
    state it can reach, resolving a name stores the outcome under that
    name before returning it; the cache afterwards extends the cache
    before; and any later resolution of the same name, whatever was
    resolved in between, returns the very same outcome: the same object,
    identity included, or the same "no policy".  The cache of an engine
    only grows along its lifetime. *)
Theorem resolve_cached
    (rules : list SyncPolicy.t) (defaults : option Defaults.t)
    (e0 e : PolicyEngine.t) (name : jsstring) :
  PolicyEngine.new rules defaults = Ok e0 →
  reachable e0 e →
  ∃ r e1, resolve e name = Ret (r, e1)
    ∧ cache e1 !! name = Some r
    ∧ cache e ⊆ cache e1
    ∧ ∀ e2, reachable e1 e2 →
        cache e1 ⊆ cache e2 ∧ resolve e2 name = Ret (r, e2).
Proof.
  intros Hnew Hreach.
  pose proof Hnew as (_ & Hd & _)%new_Ok.
  destruct (resolve_reachable rules defaults Hd e0 e name Hnew Hreach)
    as (r & e1 & Hres & _).
  exists r, e1. pose proof Hres as (_ & _ & Hsub & Hlook & _)%resolve_preserves.
  split_and!; try done.
  intros e2 (_ & _ & Hsub2 & _)%reachable_preserves. split; [done|].
  unfold resolve. by rewrite (lookup_weaken _ _ _ _ Hlook Hsub2).
Qed.

Lemma resolve_cached_witness :
  let rules := [SyncPolicy.mk (JStr (lit "sprints.*")) (JStr (lit "no-store")) JUndefined] in
  let e0 := PolicyEngine.mk rules JUndefined ∅ 0 in
  ∃ r e1, resolve e0 (lit "sprints.get") = Ret (r, e1)
    ∧ cache e1 !! lit "sprints.get" = Some r
    ∧ cache e0 ⊆ cache e1
    ∧ ∀ e2, reachable e1 e2 →
        cache e1 ⊆ cache e2 ∧ resolve e2 (lit "sprints.get") = Ret (r, e2).
Proof.
  intros rules e0.
  apply (resolve_cached rules None e0 e0 (lit "sprints.get")).
  - vm_compute. reflexivity.
  - apply reachable_new.
Defined.

(** Without the cache the two results would differ: each uncached
    resolution that yields a policy allocates a new object. *)
Lemma resolve_miss_allocates (e e' : PolicyEngine.t) (name : jsstring) p :
  cache e !! name = None →
  resolve e name = Ret (Some p, e') →
  ResolvedPolicy.id p = nextId e ∧ nextId e' = S (nextId e).
Proof.
  unfold resolve, resolveUncached. intros ->.
  destruct (resolveLoop _ _ _ _) as [[q|]|] eqn:Hloop; [|done..].
  intros [= <- <-]. split; [|done].
  revert Hloop. generalize (policies e). intros ps.
  induction ps as [|rule ps IH]; cbn.
  - destruct (truthy _); [|done]. destruct (as_directive _); [|done]. by intros [= <-].
  - destruct (SyncPolicy.match_ rule); try done.
    destruct (matchGlob _ _); [|done].
    unfold resolveMatched. destruct (copy_invalidates _); [|done].
    destruct (_ && _); [done|]. destruct (as_directive _); [|done]. by intros [= <-].
Qed.

(** C9. An empty rule set is valid: with no default, with a default
    that sets no directive, or with one that sets either directive,
    constructing an engine over the empty rule list succeeds, and then
    every resolution of every name returns a policy holding only the
    default directive when one is set, and no policy otherwise. *)
Theorem empty_rules_resolve_to_default (defaults : option Defaults.t) :
  valid_directive_field (defaults_cacheControl defaults) →
  ∃ e0, PolicyEngine.new [] defaults = Ok e0
    ∧ ∀ e name, reachable e0 e →
        ∃ r e', resolve e name = Ret (r, e')
          ∧ ResolvedPolicy.value <$> r =
              match directive_field (defaults_cacheControl defaults) with
              | Some d => Some (Some d, None)
              | None => None
              end.
Proof.
  intros Hd. eexists. split.
  - apply new_Ok. split_and!; [constructor | done | done].
  - intros e name Hreach.
    eapply (resolve_reachable [] defaults Hd) in Hreach; [exact Hreach|].
    apply new_Ok. split_and!; [constructor | done | done].
Qed.

Lemma empty_rules_resolve_to_default_witness :
  let defaults := Some (Defaults.mk (JStr (lit "no-store"))) in
  ∃ e0, PolicyEngine.new [] defaults = Ok e0
    ∧ ∀ e name, reachable e0 e →
        ∃ r e', resolve e name = Ret (r, e')
          ∧ ResolvedPolicy.value <$> r =
              match directive_field (defaults_cacheControl defaults) with
              | Some d => Some (Some d, None)
              | None => None
              end.
Proof.
  cbn zeta. apply empty_rules_resolve_to_default. right. left. reflexivity.
Defined.

(** ** Response decoration *)

Section ResponseFacts.

Import Heap.

Lemma alloc_fresh (h : gmap positive cell) (c : cell) l h' :
  alloc h c = (l, h') →
  h !! l = None ∧ h' !! l = Some c ∧ h ⊆ h'.
Proof.
  unfold alloc. intros [= <- <-].
  assert (h !! fresh (dom h) = None) as Hnone
    by apply not_elem_of_dom_1, is_fresh.
  split_and!; [done | by rewrite lookup_insert_eq | by apply insert_subseteq].
Qed.

(** What [decorateResponse] does on a well-formed result, for any
    pattern sequence. *)
Lemma decorateResponse_spec (h : gmap positive cell) (result content : positive)
    (isError : option bool) (rest : list (jsstring * jsval))
    (items : list ContentBlock.t) (patterns : list jsstring) (causedBy : jsstring) :
  h !! result = Some (Result content isError rest) →
  h !! content = Some (Array items) →
  ∃ result' content' h',
    decorateResponse h result patterns causedBy = Ret (result', h')
    ∧ h !! result' = None ∧ h !! content' = None
    ∧ h' !! result' = Some (Result content' isError rest)
    ∧ h' !! content' = Some (Array (systemBlock patterns causedBy :: items))
    ∧ h ⊆ h'.
Proof.
  intros Hres Hcont. unfold decorateResponse. rewrite Hres, Hcont.
  destruct (alloc h _) as [content' h1] eqn:H1.
  destruct (alloc h1 _) as [result' h2] eqn:H2.
  apply alloc_fresh in H1 as (Hn1 & Hs1 & Hsub1).
  apply alloc_fresh in H2 as (Hn2 & Hs2 & Hsub2).
  exists result', content', h2. split_and!; try done.
  - destruct (h !! result') eqn:Hl; [|done].
    by rewrite (lookup_weaken _ _ _ _ Hl Hsub1) in Hn2.
  - by apply (lookup_weaken _ _ _ _ Hs1 Hsub2).
  - by etrans.
Qed.

End ResponseFacts.

(** C5. Response decoration. For every call result, every non-empty
    pattern sequence and every cause name, [decorateResponse] returns a
    new result object whose content is a new array: one block of type
    [text] whose text is exactly
    [[System: Cache invalidated for p1, p2, ... — caused by <causedBy>]],
    the patterns joined with a comma and a space in their given order,
    followed by the blocks of the original content in their order.  The
    other fields of the result, the failure flag included, are carried
    over, and every object that existed before the call, the input result
    and its content array among them, is left as it was. *)
Theorem decorateResponse_prepends_notice
    (h : gmap positive Heap.cell) (result content : positive)
    (isError : option bool) (rest : list (jsstring * jsval))
    (items : list ContentBlock.t) (patterns : list jsstring) (causedBy : jsstring) :
  h !! result = Some (Heap.Result content isError rest) →
  h !! content = Some (Heap.Array items) →
  patterns ≠ [] →
  ∃ result' content' h',
    decorateResponse h result patterns causedBy = Ret (result', h')
    ∧ h !! result' = None ∧ h !! content' = None
    ∧ h' !! result' = Some (Heap.Result content' isError rest)
    ∧ h' !! content' = Some (Heap.Array (
        {| ContentBlock.type := lit "text";
           ContentBlock.props :=
             [(lit "text",
               JStr (lit "[System: Cache invalidated for "
                     ++ join (lit ", ") patterns
                     ++ lit " " ++ [8212%N] ++ lit " caused by "
                     ++ causedBy ++ lit "]"))] |} :: items))
    ∧ (∀ l c, h !! l = Some c → h' !! l = Some c).
Proof.
  intros Hres Hcont _.
  destruct (decorateResponse_spec h result content isError rest items patterns causedBy
              Hres Hcont) as (result' & content' & h' & Hrun & Hn1 & Hn2 & Hr & Hc & Hsub).
  exists result', content', h'. split_and!; try done.
  intros l c Hl. by apply (lookup_weaken _ _ _ _ Hl Hsub).
Qed.

Lemma decorateResponse_prepends_notice_witness :
  let block := ContentBlock.mk (lit "text") [(lit "text", JStr (lit "{ok:true}"))] in
  let h : gmap positive Heap.cell :=
    <[1%positive := Heap.Result 2%positive (Some false) []]>
      (<[2%positive := Heap.Array [block]]> ∅) in
  ∃ result' content' h',
    decorateResponse h 1%positive [lit "tasks.*"; lit "sprints.*"] (lit "tasks.update")
      = Ret (result', h')
    ∧ h !! result' = None ∧ h !! content' = None
    ∧ h' !! result' = Some (Heap.Result content' (Some false) [])
    ∧ h' !! content' = Some (Heap.Array (
        {| ContentBlock.type := lit "text";
           ContentBlock.props :=
             [(lit "text",
               JStr (lit "[System: Cache invalidated for "
                     ++ join (lit ", ") [lit "tasks.*"; lit "sprints.*"]
                     ++ lit " " ++ [8212%N] ++ lit " caused by "
                     ++ lit "tasks.update" ++ lit "]"))] |} :: [block]))
    ∧ (∀ l c, h !! l = Some c → h' !! l = Some c).
Proof.
  intros block h.
  apply (decorateResponse_prepends_notice h 1%positive 2%positive (Some false) []
           [block] [lit "tasks.*"; lit "sprints.*"] (lit "tasks.update")).
  - reflexivity.
  - reflexivity.
  - discriminate.
Defined.

(** C10. [decorateResponse] has no guard of its own against an empty
    pattern sequence: for every call result and cause name it still
    returns a new result, with one block prepended whose text is
    [[System: Cache invalidated for  — caused by <causedBy>]], the joined
    pattern list being empty.  The guard is in the caller: the
    [tools/call] handler returns the upstream result itself, heap
    untouched, when there is nothing to invalidate, and calls
    [decorateResponse] only otherwise. *)
Theorem decorateResponse_unguarded
    (h : gmap positive Heap.cell) (result content : positive)
    (isError : option bool) (rest : list (jsstring * jsval))
    (items : list ContentBlock.t) (causedBy : jsstring) :
  h !! result = Some (Heap.Result content isError rest) →
  h !! content = Some (Heap.Array items) →
  (∃ result' content' h',
     decorateResponse h result [] causedBy = Ret (result', h')
     ∧ result' ≠ result
     ∧ h' !! result' = Some (Heap.Result content' isError rest)
     ∧ h' !! content' = Some (Heap.Array (
         {| ContentBlock.type := lit "text";
            ContentBlock.props :=
              [(lit "text",
                JStr (lit "[System: Cache invalidated for  " ++ [8212%N]
                      ++ lit " caused by " ++ causedBy ++ lit "]"))] |} :: items)))
  ∧ (∀ engine name policy engine',
       resolve engine name = Ret (policy, engine') →
       callToolHandler engine h name result =
         match resolveInvalidations policy (default false isError) with
         | [] => Ret (result, h, engine')
         | invalidations =>
           match decorateResponse h result invalidations name with
           | Ret (result', h') => Ret (result', h', engine')
           | IllTyped => IllTyped
           end
         end).
Proof.
  intros Hres Hcont. split.
  - destruct (decorateResponse_spec h result content isError rest items [] causedBy
                Hres Hcont) as (result' & content' & h' & Hrun & Hn1 & _ & Hr & Hc & _).
    exists result', content', h'. split_and!; try done. congruence.
  - intros engine name policy engine' Hresolve.
    unfold callToolHandler. rewrite Hresolve, Hres.
    by destruct (resolveInvalidations _ _).
Qed.

Lemma decorateResponse_unguarded_witness :
  let h : gmap positive Heap.cell :=
    <[1%positive := Heap.Result 2%positive None []]>
      (<[2%positive := Heap.Array []]> ∅) in
  ∃ result' content' h',
     decorateResponse h 1%positive [] (lit "x.update") = Ret (result', h')
     ∧ result' ≠ 1%positive
     ∧ h' !! result' = Some (Heap.Result content' None [])
     ∧ h' !! content' = Some (Heap.Array (
         {| ContentBlock.type := lit "text";
            ContentBlock.props :=
              [(lit "text",
                JStr (lit "[System: Cache invalidated for  " ++ [8212%N]
                      ++ lit " caused by " ++ lit "x.update" ++ lit "]"))] |} :: [])).
Proof.
  intros h.
  apply (decorateResponse_unguarded h 1%positive 2%positive None [] [] (lit "x.update")).
  - reflexivity.
  - reflexivity.
Defined.

(** ** Regular expressions: the matcher decides the denotation *)

Section RegexFacts.

Import Regex.

Lemma nullable_Matches (r : Regex.t) : nullable r = true ↔ Matches r [].
Proof.
  induction r as [| |p|r1 IH1 r2 IH2|r1 IH1 r2 IH2|r IH]; cbn.
  - split; [done | inversion 1].
  - split; [constructor | done].
  - split; [done | inversion 1].
  - rewrite andb_true_iff, IH1, IH2. split.
    + intros [H1 H2]. by apply (Matches_Cat _ _ [] []).
    + inversion 1 as [| |? ? s1 s2 H1 H2 [E1 E2] E3| | | |]; subst.
      by apply app_eq_nil in E3 as [-> ->].
  - rewrite orb_true_iff, IH1, IH2. split.
    + intros [?|?]; by constructor.
    + inversion 1; subst; auto.
  - split; [constructor | done].
Qed.

Lemma Matches_Star_cons_gen (r' : Regex.t) (cs : jsstring) :
  Matches r' cs → ∀ q a u, r' = Star q → cs = a :: u →
  ∃ u1 u2, u = u1 ++ u2 ∧ Matches q (a :: u1) ∧ Matches (Star q) u2.
Proof.
  induction 1 as [| | | | | |r0 t1 t2 H1 _ H2 IH2]; intros q a u Hr Hcs;
    try discriminate.
  injection Hr as ->. destruct t1 as [|a' t1]; cbn in Hcs.
  - by apply IH2.
  - injection Hcs as -> <-. by exists t1, t2.
Qed.

Lemma Matches_Star_cons (r : Regex.t) c s :
  Matches (Star r) (c :: s) →
  ∃ s1 s2, s = s1 ++ s2 ∧ Matches r (c :: s1) ∧ Matches (Star r) s2.
Proof. intros H. by eapply Matches_Star_cons_gen. Qed.

Lemma deriv_Matches (r : Regex.t) : ∀ c s,
  Matches (deriv c r) s ↔ Matches r (c :: s).
Proof.
  induction r as [| |p|r1 IH1 r2 IH2|r1 IH1 r2 IH2|r IH]; intros c s; cbn.
  - split; inversion 1.
  - split; inversion 1.
  - destruct (p c) eqn:Hp.
    + split; inversion 1; subst; [by constructor | constructor].
    + split; inversion 1; subst. congruence.
  - assert (Matches (Cat (deriv c r1) r2) s ↔
            ∃ s1 s2, s = s1 ++ s2 ∧ Matches r1 (c :: s1) ∧ Matches r2 s2) as Hcat.
    { split.
      - inversion 1 as [| |? ? s1 s2 H1 H2| | | |]; subst.
        exists s1, s2. by rewrite <- IH1.
      - intros (s1 & s2 & -> & H1 & H2). constructor; [by apply IH1 | done]. }
    assert (Matches (Cat r1 r2) (c :: s) ↔
            (∃ s1 s2, s = s1 ++ s2 ∧ Matches r1 (c :: s1) ∧ Matches r2 s2)
            ∨ (Matches r1 [] ∧ Matches r2 (c :: s))) as Hsplit.
    { split.
      - inversion 1 as [| |? ? s1 s2 H1 H2 [E1 E2] E3| | | |]; subst.
        destruct s1 as [|c' s1]; cbn in E3.
        + subst. by right.
        + injection E3 as -> <-. left. by exists s1, s2.
      - intros [(s1 & s2 & -> & H1 & H2) | [H1 H2]].
        + by apply (Matches_Cat _ _ (c :: s1) s2).
        + by apply (Matches_Cat _ _ [] (c :: s)). }
    rewrite Hsplit. destruct (nullable r1) eqn:Hn.
    + apply nullable_Matches in Hn. split.
      * inversion 1; subst; [left; by apply Hcat | right; by rewrite <- IH2].
      * intros [H | [_ H]];
          [apply Matches_Alt_l; by apply Hcat | apply Matches_Alt_r; by apply IH2].
    + rewrite Hcat. split; [by left|]. intros [H | [H _]]; [done|].
      apply nullable_Matches in H. congruence.
  - split.
    + inversion 1; subst; [apply Matches_Alt_l; by apply IH1 | apply Matches_Alt_r; by apply IH2].
    + inversion 1; subst; [apply Matches_Alt_l; by apply IH1 | apply Matches_Alt_r; by apply IH2].
  - split.
    + inversion 1 as [| |? ? s1 s2 H1 H2| | | |]; subst.
      apply (Matches_Star_app _ (c :: s1) s2); [by apply IH | done].
    + intros (s1 & s2 & -> & H1 & H2)%Matches_Star_cons.
      constructor; [by apply IH | done].
Qed.

Lemma full_match_Matches (s : jsstring) : ∀ r : Regex.t,
  full_match r s = true ↔ Matches r s.
Proof.
  induction s as [|c s IH]; intros r; cbn.
  - apply nullable_Matches.
  - rewrite IH. apply deriv_Matches.
Qed.

(** Without a matching suffix there is nothing to replace. *)
Lemma replace_at_end_no_match (r : Regex.t) (s : jsstring) :
  (∀ t, t `suffix_of` s → ¬ Matches r t) →
  replace_at_end r s = s.
Proof.
  induction s as [|c s IH]; intros Hno; cbn.
  - by destruct (nullable r).
  - destruct (full_match (deriv c r) s) eqn:Hm.
    + exfalso. apply (Hno (c :: s)); [done|]. by apply (full_match_Matches (c :: s)).
    + f_equal. apply IH. intros t Ht. apply Hno. by apply suffix_cons_r.
Qed.

(** The hypothesis above, checked by computation on a given string. *)
Lemma no_matching_suffix_check (r : Regex.t) (s : jsstring) :
  forallb (fun t => negb (full_match r t)) (tails s) = true →
  ∀ t, t `suffix_of` s → ¬ Matches r t.
Proof.
  induction s as [|c s IH]; cbn [tails forallb]; intros Hall t Hsuf Hm;
    apply andb_true_iff in Hall as [Hhd Htl].
  - apply suffix_nil_inv in Hsuf as ->.
    apply (full_match_Matches []) in Hm. rewrite Hm in Hhd. done.
  - destruct Hsuf as [[|c' k] E]; cbn in E.
    + subst t. apply (full_match_Matches (c :: s)) in Hm. rewrite Hm in Hhd. done.
    + injection E as -> ->. eapply IH; [done | by exists k | done].
Qed.

End RegexFacts.

(** ** Description decoration *)

Example emitted_annotations_match :
  Regex.Matches CACHE_CONTROL_PATTERN (annotation (lit "no-store"))
  ∧ Regex.Matches CACHE_CONTROL_PATTERN (annotation (lit "immutable")).
Proof. split; apply full_match_Matches; by vm_compute. Qed.

Section DescriptionFacts.

Import Regex.

Lemma Matches_Star_Class_gen (r : Regex.t) (u : jsstring) :
  Matches r u → ∀ p, r = Star (Class p) → Forall (fun c => p c = true) u.
Proof.
  induction 1 as [| | | | | |r0 t1 t2 H1 _ _ IH2]; intros q Hr; try discriminate.
  - constructor.
  - injection Hr as ->. inversion H1; subst. constructor; [done | by apply IH2].
Qed.

Lemma Matches_Lit (l : jsstring) : ∀ u, Matches (Lit l) u → u = l.
Proof.
  induction l as [|c l IH]; intros u; cbn.
  - by inversion 1.
  - inversion 1 as [| |? ? u1 u2 H1 H2| | | |]; subst.
    inversion H1 as [|? c' Hc| | | | |]; subst.
    apply N.eqb_eq in Hc as <-. cbn. f_equal. by apply IH.
Qed.

Lemma Matches_space_then_literal (l : jsstring) (x : Regex.t) (u : jsstring) :
  Matches (Cat (Star (Class space)) (Cat (Lit l) x)) u →
  ∃ ws rest, u = ws ++ l ++ rest ∧ Forall (fun c => space c = true) ws.
Proof.
  inversion 1 as [| |? ? ws u2 Hws H2| | | |]; subst.
  inversion H2 as [| |? ? u3 u4 H3 _| | | |]; subst.
  apply Matches_Lit in H3 as ->.
  exists ws, u4. split; [done|]. by eapply Matches_Star_Class_gen.
Qed.

(** A match of the detection pattern is white space up to its first
    opening bracket. *)
Lemma Matches_pattern_bracket (u : jsstring) :
  Matches CACHE_CONTROL_PATTERN u →
  ∃ ws rest, u = ws ++ LBRACKET :: rest ∧ Forall (fun c => space c = true) ws.
Proof.
  intros H. apply (Matches_space_then_literal (lit "[Cache-Control:")) in H
    as (ws & rest & -> & Hws).
  by exists ws, (lit "Cache-Control:" ++ rest).
Qed.

Lemma annotation_shape (d : jsstring) :
  annotation d = 32%N :: LBRACKET :: (lit "Cache-Control: " ++ d ++ lit "]").
Proof. reflexivity. Qed.

Lemma space_not_bracket (ws : jsstring) :
  Forall (fun c => space c = true) ws → LBRACKET ∉ ws.
Proof.
  intros Hall Hin. rewrite Forall_forall in Hall. by apply Hall in Hin.
Qed.

(** When the text to strip is preceded by nothing that extends the match,
    exactly that text is stripped. *)
Lemma replace_at_end_exact (r : Regex.t) (pre m : jsstring) :
  Matches r m →
  (∀ t, t ≠ [] → t `suffix_of` pre → ¬ Matches r (t ++ m)) →
  replace_at_end r (pre ++ m) = pre.
Proof.
  intros Hm. induction pre as [|c pre IH]; intros Hno.
  - apply full_match_Matches in Hm. destruct m; cbn in *; by rewrite Hm.
  - cbn. destruct (full_match (deriv c r) (pre ++ m)) eqn:Hfm.
    + exfalso. apply (Hno (c :: pre)); [done | done |].
      by apply (full_match_Matches (c :: pre ++ m)).
    + f_equal. apply IH. intros t Hne Hsuf. apply Hno; [done | by apply suffix_cons_r].
Qed.

(** Whatever precedes it, a trailing match is removed: the result is a
    prefix of what precedes. *)
Lemma replace_at_end_prefix (r : Regex.t) (pre m : jsstring) :
  Matches r m → replace_at_end r (pre ++ m) `prefix_of` pre.
Proof.
  intros Hm. induction pre as [|c pre IH].
  - apply full_match_Matches in Hm. destruct m; cbn in *; by rewrite Hm.
  - cbn. destruct (full_match (deriv c r) (pre ++ m)).
    + apply prefix_nil.
    + by apply prefix_cons.
Qed.

Lemma valid_directive_annotation (d : jsstring) :
  d ∈ VALID_DIRECTIVES → d ≠ [] ∧ Matches CACHE_CONTROL_PATTERN (annotation d).
Proof.
  unfold VALID_DIRECTIVES. rewrite !elem_of_cons, elem_of_nil.
  intros [-> | [-> | []]]; (split; [done | apply full_match_Matches; by vm_compute]).
Qed.

(** X19. A second decoration never leaves the first annotation in place:
    for policies carrying valid directives, the text before the new
    annotation is a prefix of the text before the old one. *)
Lemma decorateDescription_replaces
    (tool : McpToolDef.t) (p1 p2 : ResolvedPolicy.t) (d1 d2 : jsstring) :
  ResolvedPolicy.cacheControl p1 = Some d1 → d1 ∈ VALID_DIRECTIVES →
  ResolvedPolicy.cacheControl p2 = Some d2 → d2 ∈ VALID_DIRECTIVES →
  ∃ base pre,
    McpToolDef.description (decorateDescription tool (Some p1))
      = Some (base ++ annotation d1)
    ∧ McpToolDef.description
        (decorateDescription (decorateDescription tool (Some p1)) (Some p2))
      = Some (pre ++ annotation d2)
    ∧ pre `prefix_of` base.
Proof.
  intros H1 [Hne1 Hm1]%valid_directive_annotation H2 [Hne2 _]%valid_directive_annotation.
  unfold decorateDescription, directive_of. rewrite H1, H2.
  rewrite !bool_decide_eq_false_2 by done. cbn.
  eexists _, _. split_and!; [done | done |]. by apply replace_at_end_prefix.
Qed.

(** X20. Where decoration is idempotent: on a description without an
    opening bracket that does not end in white space, decorating a
    decorated descriptor gives what decorating the original gives, for
    the same directive or another. *)
Lemma decorateDescription_clean_idempotent
    (tool : McpToolDef.t) (p1 p2 : ResolvedPolicy.t) (d1 d2 : jsstring) :
  ResolvedPolicy.cacheControl p1 = Some d1 → d1 ∈ VALID_DIRECTIVES →
  ResolvedPolicy.cacheControl p2 = Some d2 → d2 ∈ VALID_DIRECTIVES →
  LBRACKET ∉ default [] (McpToolDef.description tool) →
  (∀ pre c, default [] (McpToolDef.description tool) = pre ++ [c] → space c = false) →
  decorateDescription (decorateDescription tool (Some p1)) (Some p2)
  = decorateDescription tool (Some p2).
Proof.
  intros H1 [Hne1 Hm1]%valid_directive_annotation H2 [Hne2 _]%valid_directive_annotation.
  set (s := default [] (McpToolDef.description tool)). intros Hbr Hend.
  assert (replace_at_end CACHE_CONTROL_PATTERN s = s) as Hkeep.
  { apply replace_at_end_no_match.
    intros t [k Hk] (ws & rest & -> & _)%Matches_pattern_bracket.
    apply Hbr. rewrite Hk. rewrite !elem_of_app, elem_of_cons. auto. }
  assert (replace_at_end CACHE_CONTROL_PATTERN (s ++ annotation d1) = s) as Hstrip.
  { apply replace_at_end_exact; [done|].
    intros t Hne [k Hk] (ws & rest & Heq & Hws)%Matches_pattern_bracket.
    rewrite annotation_shape in Heq.
    change (t ++ 32%N :: LBRACKET :: ?x) with (t ++ [32%N] ++ LBRACKET :: x) in Heq.
    rewrite (assoc_L (++)) in Heq.
    apply not_elem_of_app_cons_inv_l in Heq as (Heq & _ & _).
    - destruct (decide (t = [])) as [|_]; [done|].
      destruct t as [|c0 t0] using rev_ind; [done|].
      rewrite <- Heq in Hws. apply Forall_app in Hws as [Hws _].
      apply Forall_app in Hws as [_ Hc]. apply Forall_cons in Hc as [Hc _].
      rewrite (Hend (k ++ t0) c0) in Hc; [done|].
      by rewrite <- (assoc_L (++)).
    - by apply space_not_bracket.
    - rewrite elem_of_app, list_elem_of_singleton. intros [Hin | ?]; [|done].
      apply Hbr. rewrite Hk, elem_of_app. auto. }
  unfold decorateDescription, directive_of. rewrite H1, H2.
  rewrite !bool_decide_eq_false_2 by done.
  cbn [McpToolDef.description McpToolDef.name McpToolDef.inputSchema
       McpToolDef.annotations default].
  fold s. rewrite !Hkeep. unfold id. by rewrite Hstrip.
Qed.

End DescriptionFacts.

(** C8 as stated fails: the detection pattern is wider than the two
    emitted annotations.  This description ends with neither of them, and
    yet its last bracket is stripped, not preserved. *)
Lemma decorateDescription_strips_other_annotation :
  let description := lit "Reads data [Cache-Control: max-age=60]" in
  let tool := McpToolDef.mk (lit "data.read") (Some description) JObj JUndefined in
  let policy := Some (ResolvedPolicy.mk 0 (Some (lit "no-store")) None) in
  ¬ lit " [Cache-Control: no-store]" `suffix_of` description
  ∧ ¬ lit " [Cache-Control: immutable]" `suffix_of` description
  ∧ McpToolDef.description (decorateDescription tool policy)
    = Some (lit "Reads data [Cache-Control: no-store]")
  ∧ McpToolDef.description (decorateDescription tool policy)
    ≠ Some (description ++ lit " [Cache-Control: no-store]").
Proof.
  cbn zeta. split_and!.
  - intros H%(bool_decide_eq_true_2 _). by vm_compute in H.
  - intros H%(bool_decide_eq_true_2 _). by vm_compute in H.
  - by vm_compute.
  - by vm_compute.
Qed.

(** C8, amended. For every descriptor whose description (the empty
    string when missing) has no trailing text matching the detection
    pattern [\s*\[Cache-Control:\s*\w[^\]]*\]], decorating with a policy
    that carries a directive keeps the whole description and appends one
    space and the bracketed annotation [[Cache-Control: <directive>]]; the
    other fields of the descriptor are kept. *)
Theorem decorateDescription_appends_annotation
    (tool : McpToolDef.t) (policy : ResolvedPolicy.t) (directive : jsstring) :
  ResolvedPolicy.cacheControl policy = Some directive →
  directive ≠ [] →
  (∀ t, t `suffix_of` default [] (McpToolDef.description tool) →
        ¬ Regex.Matches CACHE_CONTROL_PATTERN t) →
  decorateDescription tool (Some policy) =
    {| McpToolDef.name := McpToolDef.name tool;
       McpToolDef.description :=
         Some (default [] (McpToolDef.description tool)
               ++ lit " [Cache-Control: " ++ directive ++ lit "]");
       McpToolDef.inputSchema := McpToolDef.inputSchema tool;
       McpToolDef.annotations := McpToolDef.annotations tool |}.
Proof.
  intros Hcc Hne Hno. unfold decorateDescription, directive_of. rewrite Hcc.
  rewrite bool_decide_eq_false_2 by done.
  cbn zeta. by rewrite (replace_at_end_no_match _ _ Hno).
Qed.

Lemma decorateDescription_appends_annotation_witness :
  decorateDescription
    (McpToolDef.mk (lit "sprints.get") (Some (lit "Get sprint details.")) JObj JUndefined)
    (Some (ResolvedPolicy.mk 0 (Some (lit "no-store")) None))
  = McpToolDef.mk (lit "sprints.get")
      (Some (lit "Get sprint details." ++ lit " [Cache-Control: " ++ lit "no-store" ++ lit "]"))
      JObj JUndefined.
Proof.
  apply (decorateDescription_appends_annotation
           (McpToolDef.mk (lit "sprints.get") (Some (lit "Get sprint details.")) JObj JUndefined)
           (ResolvedPolicy.mk 0 (Some (lit "no-store")) None) (lit "no-store")).
  - reflexivity.
  - discriminate.
  - apply no_matching_suffix_check. vm_compute. reflexivity.
Defined.

(** C4. Decoration is meant to be idempotent; the code is not, on a
    description that ends in white space.  The first decoration appends
    the annotation after the trailing space; the second strips the
    annotation together with every white space before it and appends it
    again, so that decorating twice with one policy differs from
    decorating once. *)
Theorem decorateDescription_twice_differs :
  let tool :=
    McpToolDef.mk (lit "sprints.get") (Some (lit "Get sprint details. ")) JObj JUndefined in
  let policy := Some (ResolvedPolicy.mk 0 (Some (lit "no-store")) None) in
  let once := decorateDescription tool policy in
  let twice := decorateDescription once policy in
  McpToolDef.description once
    = Some (lit "Get sprint details.  [Cache-Control: no-store]")
  ∧ McpToolDef.description twice
    = Some (lit "Get sprint details. [Cache-Control: no-store]")
  ∧ McpToolDef.description twice ≠ McpToolDef.description once.
Proof. cbn zeta. split_and!; by vm_compute. Qed.

(** * Further properties of the code *)

(** ** GlobMatcher: what the wildcards amount to *)

Section GlobMatcherMore.

Implicit Types (ps ns : list jsstring) (p n : jsstring).

Lemma split_dot_nonempty (s : jsstring) : split_dot s ≠ [].
Proof.
  destruct s as [|c s]; cbn; [done|].
  destruct (N.eqb c DOT); [done|]. by destruct (split_dot s).
Qed.

Lemma split_dot_app (a b : jsstring) :
  split_dot (a ++ DOT :: b) = split_dot a ++ split_dot b.
Proof.
  induction a as [|c a IH]; cbn.
  - done.
  - rewrite IH. destruct (N.eqb c DOT); [done|].
    pose proof (split_dot_nonempty a). by destruct (split_dot a).
Qed.

Lemma spec_matches_refl ps : spec_matches ps ps = true.
Proof.
  induction ps as [|p ps IH]; [done|].
  rewrite spec_matches_cons.
  destruct (str_eqb p DSTAR) eqn:HD.
  - apply str_eqb_true in HD as ->. apply orb_true_iff. right.
    apply spec_matches_dstar. exists 0. split; [lia | by rewrite drop_0].
  - destruct (str_eqb p STAR); [done|].
    by replace (str_eqb p p) with true by (symmetry; by apply str_eqb_true).
Qed.

Lemma spec_matches_length ps : ∀ ns,
  spec_matches ps ns = true →
  length (filter (fun seg => seg ≠ DSTAR) ps) ≤ length ns
  ∧ (DSTAR ∉ ps → length ps = length ns).
Proof.
  induction ps as [|p ps IH]; intros ns Hm.
  - destruct ns; [done | discriminate].
  - destruct (decide (p = DSTAR)) as [->|Hp].
    + rewrite filter_cons_False by (intros H; by apply H). split.
      * apply spec_matches_dstar in Hm as (k & Hk & Hm).
        apply IH in Hm as [Hm _]. rewrite length_drop in Hm.
        eapply Nat.le_trans; [exact Hm | apply Nat.le_sub_l].
      * intros Hin. exfalso. apply Hin. by left.
    + rewrite filter_cons_True by done.
      destruct ns as [|n ns].
      * rewrite spec_matches_nil_r in Hm. cbn in Hm.
        apply andb_true_iff in Hm as [Hm%str_eqb_true _]. done.
      * rewrite spec_matches_cons in Hm.
        apply str_eqb_false in Hp. rewrite Hp in Hm.
        assert (spec_matches ps ns = true) as Hrec.
        { destruct (str_eqb p STAR); [done|]. by destruct (str_eqb p n). }
        apply IH in Hrec as [Hle Heq]. split; [cbn; by apply le_n_S|].
        intros Hin. cbn. f_equal. apply Heq. intros ?. apply Hin. by right.
Qed.

Lemma spec_matches_literal_prefix ps : ∀ ns,
  wildcard_free ps →
  (spec_matches (ps ++ [DSTAR]) ns = true ↔ ps `prefix_of` ns).
Proof.
  induction ps as [|p ps IH]; intros ns Hwf.
  - cbn [app]. split; [intros _; apply prefix_nil|]. intros _.
    apply spec_matches_dstar. exists (length ns). by rewrite drop_all.
  - apply Forall_cons in Hwf as [[HS HD] Hwf].
    apply str_eqb_false in HS, HD.
    destruct ns as [|n ns].
    + cbn [app]. rewrite spec_matches_nil_r. cbn [forallb]. rewrite HD. cbn.
      split; [done|]. by intros ?%prefix_nil_inv.
    + cbn [app]. rewrite spec_matches_cons, HD, HS.
      destruct (str_eqb p n) eqn:Hpn.
      * apply str_eqb_true in Hpn as ->. rewrite (IH ns Hwf).
        split; [apply prefix_cons | apply prefix_cons_inv_2].
      * apply str_eqb_false in Hpn. split; [done|].
        by intros ?%prefix_cons_inv_1.
Qed.

Lemma spec_matches_literal_suffix ps ns :
  wildcard_free ps →
  (spec_matches (DSTAR :: ps) ns = true ↔ ps `suffix_of` ns).
Proof.
  intros Hwf. rewrite spec_matches_dstar. split.
  - intros (k & _ & Hm). apply spec_matches_wildcard_free in Hm as ->; [|done].
    apply suffix_drop.
  - intros [k ->]. exists (length k). split; [rewrite length_app; lia|].
    rewrite drop_app_length. by apply spec_matches_wildcard_free.
Qed.

End GlobMatcherMore.

(** X1. The pattern [**] matches every name, the empty name and names
    with empty segments included. *)
Theorem matchGlob_double_star_all (name : jsstring) :
  matchGlob (lit "**") name = true.
Proof.
  rewrite matchGlob_spec.
  change (split_dot (lit "**")) with [DSTAR].
  apply spec_matches_dstar. exists (length (split_dot name)).
  by rewrite drop_all.
Qed.

(** X2. Every string, taken as a pattern, matches itself taken as a
    name: wildcards in a name are ordinary segments, and a wildcard of
    the pattern accepts them. *)
Theorem matchGlob_reflexive (s : jsstring) : matchGlob s s = true.
Proof. rewrite matchGlob_spec. apply spec_matches_refl. Qed.

(** X3. A match bounds the number of segments of the name: the name has
    at least as many segments as the pattern has segments other than
    [**], and exactly as many as the pattern when the pattern has no
    [**] at all, so that [*] never spans a dot. *)
Theorem matchGlob_segment_count (pattern name : jsstring) :
  matchGlob pattern name = true →
  length (filter (fun seg => seg ≠ DSTAR) (split_dot pattern))
    ≤ length (split_dot name)
  ∧ (DSTAR ∉ split_dot pattern →
     length (split_dot pattern) = length (split_dot name)).
Proof. rewrite matchGlob_spec. apply spec_matches_length. Qed.

Lemma matchGlob_segment_count_witness :
  length (filter (fun seg => seg ≠ DSTAR) (split_dot (lit "sprints.*.get")))
    ≤ length (split_dot (lit "sprints.tasks.get"))
  ∧ (DSTAR ∉ split_dot (lit "sprints.*.get") →
     length (split_dot (lit "sprints.*.get"))
     = length (split_dot (lit "sprints.tasks.get"))).
Proof.
  apply (matchGlob_segment_count (lit "sprints.*.get") (lit "sprints.tasks.get")).
  vm_compute. reflexivity.
Defined.

(** X4. A literal prefix followed by [.**] selects a whole subtree: for
    a pattern [P] without wildcards, [P.**] matches a name exactly when
    the segments of [P] are the first segments of the name, [P] itself
    included. *)
Theorem matchGlob_subtree (prefix name : jsstring) :
  wildcard_free (split_dot prefix) →
  (matchGlob (prefix ++ lit ".**") name = true
   ↔ split_dot prefix `prefix_of` split_dot name).
Proof.
  intros Hwf. rewrite matchGlob_spec.
  change (lit ".**") with (DOT :: lit "**"). rewrite split_dot_app.
  change (split_dot (lit "**")) with [DSTAR].
  by apply spec_matches_literal_prefix.
Qed.

Lemma matchGlob_subtree_witness :
  matchGlob (lit "sprints.tasks" ++ lit ".**") (lit "sprints.tasks.get.all") = true
  ↔ split_dot (lit "sprints.tasks") `prefix_of` split_dot (lit "sprints.tasks.get.all").
Proof.
  apply (matchGlob_subtree (lit "sprints.tasks") (lit "sprints.tasks.get.all")).
  repeat constructor; discriminate.
Defined.

(** X5. [**.] followed by a literal suffix selects by ending: for a
    pattern [S] without wildcards, [**.S] matches a name exactly when the
    segments of [S] are the last segments of the name. *)
Theorem matchGlob_ending (suffix name : jsstring) :
  wildcard_free (split_dot suffix) →
  (matchGlob (lit "**." ++ suffix) name = true
   ↔ split_dot suffix `suffix_of` split_dot name).
Proof.
  intros Hwf. rewrite matchGlob_spec.
  change (lit "**." ++ suffix) with (lit "**" ++ DOT :: suffix).
  rewrite split_dot_app. change (split_dot (lit "**")) with [DSTAR].
  by apply spec_matches_literal_suffix.
Qed.

Lemma matchGlob_ending_witness :
  matchGlob (lit "**." ++ lit "get") (lit "a.b.get") = true
  ↔ split_dot (lit "get") `suffix_of` split_dot (lit "a.b.get").
Proof.
  apply (matchGlob_ending (lit "get") (lit "a.b.get")).
  repeat constructor; discriminate.
Defined.

(** ** PolicyValidator: what is accepted and which error is raised *)

Section RegexInversion.

Import Regex.

Lemma Matches_Eps_iff (u : jsstring) : Matches Eps u ↔ u = [].
Proof. split; [by inversion 1 | intros ->; constructor]. Qed.

Lemma Matches_Class_iff (p : N → bool) (u : jsstring) :
  Matches (Class p) u ↔ ∃ c, u = [c] ∧ p c = true.
Proof.
  split; [inversion 1; subst; eauto | intros (c & -> & Hc); by constructor].
Qed.

Lemma Matches_Cat_iff (r1 r2 : Regex.t) (u : jsstring) :
  Matches (Cat r1 r2) u ↔ ∃ u1 u2, u = u1 ++ u2 ∧ Matches r1 u1 ∧ Matches r2 u2.
Proof.
  split; [inversion 1; subst; eauto | intros (u1 & u2 & -> & H1 & H2); by constructor].
Qed.

Lemma Matches_Alt_iff (r1 r2 : Regex.t) (u : jsstring) :
  Matches (Alt r1 r2) u ↔ Matches r1 u ∨ Matches r2 u.
Proof.
  split; [inversion 1; subst; auto | intros [H | H]; by constructor].
Qed.

Lemma Matches_Star_Class_iff (p : N → bool) (u : jsstring) :
  Matches (Star (Class p)) u ↔ Forall (fun c => p c = true) u.
Proof.
  split; [intros H; by eapply Matches_Star_Class_gen|].
  induction 1 as [|c u Hc _ IH]; [constructor|].
  apply (Matches_Star_app _ [c] u); [by constructor | done].
Qed.

End RegexInversion.

(** X6. The segment grammar [VALID_SEGMENT] accepts exactly three kinds
    of segment: the single star, the double star, and a non-empty run of
    letters, digits, underscores and hyphens.  The empty segment, three
    stars, and a star mixed with text are all refused. *)
Theorem VALID_SEGMENT_accepts (seg : jsstring) :
  Regex.test_anchored VALID_SEGMENT seg = true
  ↔ seg = STAR ∨ seg = DSTAR
    ∨ (seg ≠ [] ∧ Forall (fun c => segment_char c = true) seg).
Proof.
  unfold Regex.test_anchored. rewrite full_match_Matches.
  unfold VALID_SEGMENT, Regex.Plus, Regex.Opt.
  rewrite Matches_Alt_iff, !Matches_Cat_iff. split.
  - intros [(u1 & u2 & -> & H1 & H2) | (u1 & u2 & -> & H1 & H2)].
    + apply Matches_Class_iff in H1 as (c & -> & <-%N.eqb_eq).
      apply Matches_Alt_iff in H2 as [H2 | ->%Matches_Eps_iff]; [|by left].
      apply Matches_Class_iff in H2 as (c & -> & <-%N.eqb_eq). by right; left.
    + apply Matches_Class_iff in H1 as (c & -> & Hc).
      apply Matches_Star_Class_iff in H2. right; right. split; [done|].
      by constructor.
  - intros [-> | [-> | [Hne Hall]]].
    + left. exists [42%N], []. split_and!; [done | by constructor |].
      apply Regex.Matches_Alt_r. constructor.
    + left. exists [42%N], [42%N]. split_and!; [done | by constructor |].
      apply Regex.Matches_Alt_l. by constructor.
    + right. destruct Hall as [|c u Hc Hall]; [done|].
      exists [c], u. split_and!; [done | by constructor |].
      by apply Matches_Star_Class_iff.
Qed.

Section ValidatorMore.

Lemma find_Some_first {A} (f : A → bool) (l : list A) (x : A) :
  find f l = Some x →
  ∃ pre post, l = pre ++ x :: post ∧ Forall (fun y => f y = false) pre ∧ f x = true.
Proof.
  induction l as [|y l IH]; cbn; [done|].
  destruct (f y) eqn:Hy.
  - intros [= ->]. by exists [], l.
  - intros (pre & post & -> & Hpre & Hx)%IH.
    exists (y :: pre), post. split_and!; [done | by constructor | done].
Qed.

Lemma validatePolicy_position (i : nat) (p : SyncPolicy.t) e :
  validatePolicy i p = Throw e → error_position e = Some i.
Proof.
  unfold validatePolicy.
  destruct (_ || _); [by intros [= <-]|].
  destruct (find _ _); [by intros [= <-]|].
  destruct (_ && _); [by intros [= <-]|].
  destruct (is_defined _); [|done].
  destruct (SyncPolicy.invalidates p); try by intros [= <-].
  destruct (existsb _ _); [by intros [= <-] | done].
Qed.

Lemma validateFrom_app (good rest : list SyncPolicy.t) : ∀ i,
  Forall valid_rule good →
  validateFrom i (good ++ rest) = validateFrom (i + length good) rest.
Proof.
  induction good as [|p good IH]; intros i Hgood; cbn.
  - by rewrite Nat.add_0_r.
  - apply Forall_cons in Hgood as [Hp Hgood].
    apply (validatePolicy_Ok i) in Hp. rewrite Hp, IH by done.
    f_equal. lia.
Qed.

End ValidatorMore.

(** X7. Validation is fail-fast and reports the position.  When the
    rules before some rule are all valid and that rule is not,
    [validatePolicies] throws the error of that rule, carrying its index
    in the list; the rules after it are never examined, so the outcome
    does not depend on them. *)
Theorem validatePolicies_first_invalid
    (good : list SyncPolicy.t) (bad : SyncPolicy.t) (rest : list SyncPolicy.t) :
  Forall valid_rule good →
  ¬ valid_rule bad →
  ∃ e, validatePolicies (good ++ bad :: rest) = Throw e
       ∧ validatePolicy (length good) bad = Throw e
       ∧ error_position e = Some (length good).
Proof.
  intros Hgood Hbad. unfold validatePolicies.
  rewrite validateFrom_app by done. cbn.
  destruct (validatePolicy (length good) bad) as [[]|e] eqn:Hv.
  - by apply validatePolicy_Ok in Hv.
  - exists e. split_and!; [done | done | by eapply validatePolicy_position].
Qed.

Lemma validatePolicies_first_invalid_witness :
  let good := [SyncPolicy.mk (JStr (lit "sprints.*")) (JStr (lit "no-store")) JUndefined] in
  let bad := SyncPolicy.mk (JStr (lit "tasks.update")) JUndefined (JStr (lit "tasks.*")) in
  let rest := [SyncPolicy.mk (JStr (lit "")) JUndefined JUndefined] in
  ∃ e, validatePolicies (good ++ bad :: rest) = Throw e
       ∧ validatePolicy (length good) bad = Throw e
       ∧ error_position e = Some (length good).
Proof.
  intros good bad rest.
  apply (validatePolicies_first_invalid good bad rest).
  - apply (validateFrom_Ok good 0). vm_compute. reflexivity.
  - intros H. apply (validatePolicy_Ok 0) in H. vm_compute in H. discriminate.
Defined.

(** X8. Which error a rule raises.  The checks of one rule run in a
    fixed order and the first that fails decides the error: the pattern
    not being a non-empty string; else its first segment outside the
    grammar, which the error names; else a directive that is neither
    absent nor one of the two values; else an [invalidates] that is
    present and not an array; else an [invalidates] array with an element
    that is not a non-empty string.  A rule that passes them all is
    accepted. *)
Theorem validatePolicy_decides (i : nat) (p : SyncPolicy.t) :
  (¬ nonempty_string (SyncPolicy.match_ p)
   ∧ validatePolicy i p = Throw (MatchNotNonEmptyString i))
  ∨ (∃ m pre seg post,
       SyncPolicy.match_ p = JStr m ∧ m ≠ []
       ∧ split_dot m = pre ++ seg :: post
       ∧ Forall (fun s => Regex.test_anchored VALID_SEGMENT s = true) pre
       ∧ Regex.test_anchored VALID_SEGMENT seg = false
       ∧ validatePolicy i p = Throw (InvalidSegment i seg))
  ∨ (valid_match_field (SyncPolicy.match_ p)
     ∧ ¬ valid_directive_field (SyncPolicy.cacheControl p)
     ∧ validatePolicy i p = Throw (InvalidCacheControl i))
  ∨ (valid_match_field (SyncPolicy.match_ p)
     ∧ valid_directive_field (SyncPolicy.cacheControl p)
     ∧ SyncPolicy.invalidates p ≠ JUndefined
     ∧ (∀ xs, SyncPolicy.invalidates p ≠ JArr xs)
     ∧ validatePolicy i p = Throw (InvalidatesNotArray i))
  ∨ (valid_match_field (SyncPolicy.match_ p)
     ∧ valid_directive_field (SyncPolicy.cacheControl p)
     ∧ (∃ xs, SyncPolicy.invalidates p = JArr xs ∧ ¬ Forall nonempty_string xs)
     ∧ validatePolicy i p = Throw (InvalidatesEntry i))
  ∨ (valid_rule p ∧ validatePolicy i p = Ok tt).
Proof.
  destruct (validatePolicy i p) as [[]|e] eqn:Hv.
  { repeat right. split; [by eapply validatePolicy_Ok | done]. }
  revert Hv. unfold validatePolicy.
  destruct p as [m cc inv];
    cbn [SyncPolicy.match_ SyncPolicy.cacheControl SyncPolicy.invalidates].
  destruct (negb (truthy m) || negb (is_string m)) eqn:Hm.
  { intros [= <-]. left. split; [|done].
    intros H%nonempty_string_check. congruence. }
  apply nonempty_string_check in Hm as (s & -> & Hs).
  destruct (find _ (split_dot s)) as [seg|] eqn:Hfind.
  { intros [= <-]. right; left.
    apply find_Some_first in Hfind as (pre & post & Hsplit & Hpre & Hseg).
    exists s, pre, seg, post. split_and!; try done.
    - eapply Forall_impl; [exact Hpre|]. cbn. intros x.
      by destruct (Regex.test_anchored _ x).
    - by destruct (Regex.test_anchored _ seg). }
  apply find_None_Forall in Hfind.
  assert (valid_match_field (JStr s)) as Hmatch.
  { exists s. split_and!; [done | done |].
    eapply Forall_impl; [exact Hfind|]. cbn. intros x.
    by destruct (Regex.test_anchored _ x). }
  destruct (is_defined cc && negb (has_directive cc)) eqn:Hcc.
  { intros [= <-]. right; right; left. split_and!; [done | | done].
    intros H%directive_check. congruence. }
  apply directive_check in Hcc.
  destruct inv as [| |b|z|s'|xs|]; cbn [is_defined]; try done;
    try (intros [= <-]; right; right; right; left; by split_and!).
  destruct (existsb _ xs) eqn:Hex; [|done].
  intros [= <-]. right; right; right; right; left. split_and!; [done | done | | done].
  exists xs. split; [done|]. intros Hall.
  assert (existsb (fun pattern => negb (truthy pattern) || negb (is_string pattern)) xs
          = false) as Hno; [|congruence].
  apply existsb_false_Forall. eapply Forall_impl; [exact Hall|].
  intros v. apply nonempty_string_check.
Qed.

(** X9. A pattern with an empty segment never gets into an engine: when
    the pattern of any rule starts or ends with a dot or has two dots in
    a row, construction throws. *)
Theorem new_rejects_empty_segment
    (policies : list SyncPolicy.t) (defaults : option Defaults.t)
    (rule : SyncPolicy.t) (m : jsstring) :
  rule ∈ policies →
  SyncPolicy.match_ rule = JStr m →
  [] ∈ split_dot m →
  ∃ e, PolicyEngine.new policies defaults = Throw e.
Proof.
  intros Hin Hm Hempty.
  destruct (PolicyEngine.new policies defaults) as [engine|e] eqn:Hnew; [|eauto].
  apply new_Ok in Hnew as (Hall & _ & _).
  rewrite Forall_forall in Hall.
  destruct (Hall _ Hin) as ((m' & Hm' & _ & Hsegs) & _ & _).
  rewrite Hm in Hm'. injection Hm' as <-.
  rewrite Forall_forall in Hsegs. apply Hsegs in Hempty. discriminate.
Qed.

Lemma new_rejects_empty_segment_witness :
  ∃ e, PolicyEngine.new
         [SyncPolicy.mk (JStr (lit "sprints..get")) JUndefined JUndefined] None
       = Throw e.
Proof.
  apply (new_rejects_empty_segment _ None
           (SyncPolicy.mk (JStr (lit "sprints..get")) JUndefined JUndefined)
           (lit "sprints..get")).
  - apply list_elem_of_here.
  - reflexivity.
  - vm_compute. apply list_elem_of_further, list_elem_of_here.
Defined.

(** ** PolicyEngine: what resolution returns and what decides it *)

Section EngineMore.

Lemma as_strings_nonempty (xs : list jsval) (l : list jsstring) :
  Forall nonempty_string xs → as_strings xs = Ret l →
  Forall (fun s => s ≠ []) l.
Proof.
  intros Hall. revert l.
  induction Hall as [|v xs (s & -> & Hs) _ IH]; intros l; cbn.
  - intros [= <-]. constructor.
  - destruct (as_strings xs) as [l'|]; [|done].
    intros [= <-]. constructor; [done | by apply IH].
Qed.

Lemma resolve_spec_well_formed
    (rules : list SyncPolicy.t) (defaults : option Defaults.t) (name : jsstring) d l :
  Forall valid_rule rules →
  valid_directive_field (defaults_cacheControl defaults) →
  resolve_spec rules defaults name = Some (d, l) →
  (∀ x, d = Some x → x ∈ VALID_DIRECTIVES)
  ∧ (∀ xs, l = Some xs → xs ≠ [] ∧ Forall (fun s => s ≠ []) xs)
  ∧ (d ≠ None ∨ l ≠ None).
Proof.
  intros Hall Hd. unfold resolve_spec. cbn zeta.
  assert (∀ v x, valid_directive_field v → directive_field v = Some x →
                 x ∈ VALID_DIRECTIVES) as Hdir.
  { intros v x [-> | [-> | ->]]; cbn; [done|..]; intros [= <-];
      unfold VALID_DIRECTIVES; rewrite !elem_of_cons; auto. }
  destruct (find _ rules) as [rule|] eqn:Hfind.
  - apply find_some in Hfind as [Hin _].
    rewrite Forall_forall in Hall. apply list_elem_of_In, Hall in Hin.
    destruct Hin as (_ & Hcc & Hinv).
    set (dir := match directive_field (SyncPolicy.cacheControl rule) with
                | Some x => Some x
                | None => directive_field (defaults_cacheControl defaults)
                end).
    assert (∀ x, dir = Some x → x ∈ VALID_DIRECTIVES) as Hdir'.
    { intros x. unfold dir.
      destruct (directive_field (SyncPolicy.cacheControl rule)) eqn:E.
      - intros [= <-]. by eapply Hdir.
      - by apply Hdir. }
    set (inv := match patterns_field (SyncPolicy.invalidates rule) with
                | Some (x :: xs) => Some (x :: xs)
                | _ => None
                end).
    assert (∀ xs, inv = Some xs → xs ≠ [] ∧ Forall (fun s => s ≠ []) xs) as Hinv'.
    { intros xs. unfold inv, patterns_field.
      destruct Hinv as [-> | (ys & -> & Hys)]; [done|].
      destruct (as_strings ys) as [zs|] eqn:E; [|done].
      destruct zs as [|z zs]; [done|]. intros [= <-]. split; [done|].
      by eapply as_strings_nonempty. }
    destruct dir as [x|], inv as [xs|]; try done; intros [= <- <-]; split_and!; auto.
  - destruct (directive_field _) as [x|] eqn:E; [|done].
    intros [= <- <-]. split_and!; [|done|by left].
    intros y [= <-]. by eapply Hdir.
Qed.

Lemma resolve_spec_first_match
    (pre : list SyncPolicy.t) (rule : SyncPolicy.t) (post : list SyncPolicy.t)
    (defaults : option Defaults.t) (name : jsstring) :
  Forall (fun q => rule_matches name q = false) pre →
  rule_matches name rule = true →
  resolve_spec (pre ++ rule :: post) defaults name
  = resolve_spec [rule] defaults name.
Proof.
  intros Hpre Hrule. unfold resolve_spec.
  assert (find (rule_matches name) (pre ++ rule :: post) = Some rule) as ->.
  { induction Hpre as [|q pre Hq _ IH]; cbn; [by rewrite Hrule | by rewrite Hq]. }
  cbn [find]. by rewrite Hrule.
Qed.

Lemma without_empty_invalidates_valid (p : SyncPolicy.t) :
  valid_rule p → valid_rule (without_empty_invalidates p).
Proof.
  unfold without_empty_invalidates. intros Hv.
  destruct (SyncPolicy.invalidates p) as [| | | | |[|]|]; try exact Hv.
  destruct Hv as (Hm & Hc & _). split; [exact Hm | split; [exact Hc | by left]].
Qed.

Lemma resolve_spec_without_empty
    (rules : list SyncPolicy.t) (defaults : option Defaults.t) (name : jsstring) :
  resolve_spec (map without_empty_invalidates rules) defaults name
  = resolve_spec rules defaults name.
Proof.
  assert (∀ q, rule_matches name (without_empty_invalidates q) = rule_matches name q)
    as Hm.
  { intros q. unfold without_empty_invalidates.
    by destruct (SyncPolicy.invalidates q) as [| | | | |[|]|]. }
  assert (∀ q, SyncPolicy.cacheControl (without_empty_invalidates q)
               = SyncPolicy.cacheControl q) as Hcc.
  { intros q. unfold without_empty_invalidates.
    by destruct (SyncPolicy.invalidates q) as [| | | | |[|]|]. }
  assert (∀ q, match patterns_field (SyncPolicy.invalidates (without_empty_invalidates q)) with
               | Some (x :: l) => Some (x :: l)
               | _ => None
               end
               = match patterns_field (SyncPolicy.invalidates q) with
                 | Some (x :: l) => Some (x :: l)
                 | _ => None
                 end) as Hinv.
  { intros q. unfold without_empty_invalidates.
    destruct (SyncPolicy.invalidates q) as [| | | | |[|]|] eqn:E; cbn; by rewrite ?E. }
  unfold resolve_spec. cbn zeta.
  induction rules as [|p rules IH]; [done|].
  cbn [map find]. rewrite Hm.
  destruct (rule_matches name p); [|exact IH].
  by rewrite Hcc, Hinv.
Qed.

Lemma resolveLoop_id (k : nat) (dflt : jsval) (name : jsstring)
    (ps : list SyncPolicy.t) (p : ResolvedPolicy.t) :
  resolveLoop k dflt name ps = Ret (Some p) → ResolvedPolicy.id p = k.
Proof.
  induction ps as [|rule ps IH]; cbn.
  - destruct (truthy _); [|done]. destruct (as_directive _); [|done]. by intros [= <-].
  - destruct (SyncPolicy.match_ rule); try done.
    destruct (matchGlob _ _); [|done].
    unfold resolveMatched. destruct (copy_invalidates _); [|done].
    destruct (_ && _); [done|]. destruct (as_directive _); [|done]. by intros [= <-].
Qed.

Lemma resolve_ids (e e' : PolicyEngine.t) (name : jsstring) r :
  resolve e name = Ret (r, e') →
  cache_ids_bounded e ∧ cache_ids_distinct e →
  cache_ids_bounded e' ∧ cache_ids_distinct e'.
Proof.
  unfold resolve. destruct (cache e !! name) as [cached|] eqn:Hc.
  { by intros [= <- <-]. }
  unfold resolveUncached.
  destruct (resolveLoop _ _ _ _) as [result|] eqn:Hloop; [|done].
  intros [= <- <-] [Hb Hd]. split.
  - intros n p. cbn. destruct (decide (name = n)) as [<-|Hne].
    + rewrite lookup_insert_eq. intros [= ->].
      apply resolveLoop_id in Hloop. lia.
    + rewrite lookup_insert_ne by done. intros H%Hb.
      destruct result; lia.
  - intros n1 n2 p1 p2. cbn.
    destruct (decide (name = n1)) as [<-|Hne1], (decide (name = n2)) as [<-|Hne2];
      rewrite ?lookup_insert_eq, ?lookup_insert_ne by done; try done.
    + intros [= ->] H2%Hb Hid. apply resolveLoop_id in Hloop. lia.
    + intros H1%Hb [= ->] Hid. apply resolveLoop_id in Hloop. lia.
    + apply Hd.
Qed.

Lemma reachable_ids (e0 e : PolicyEngine.t) :
  reachable e0 e →
  cache_ids_bounded e0 ∧ cache_ids_distinct e0 →
  cache_ids_bounded e ∧ cache_ids_distinct e.
Proof.
  induction 1 as [|e name r e' _ IH Hstep]; [done|].
  intros H0. eapply resolve_ids; [exact Hstep | by apply IH].
Qed.

Lemma reachable_step (e0 e e' : PolicyEngine.t) (name : jsstring) r :
  reachable e0 e → resolve e name = Ret (r, e') → reachable e0 e'.
Proof. intros. by eapply reachable_resolve. Qed.

End EngineMore.

(** X10. What [resolve] returns is never an empty shell.  On a
    constructed engine a returned policy has a directive that is absent or
    one of [no-store] and [immutable], an invalidation list that is absent
    or non-empty with only non-empty patterns, and at least one of the
    two. *)
Theorem resolve_well_formed
    (rules : list SyncPolicy.t) (defaults : option Defaults.t)
    (e0 e e' : PolicyEngine.t) (name : jsstring) (p : ResolvedPolicy.t) :
  PolicyEngine.new rules defaults = Ok e0 →
  reachable e0 e →
  resolve e name = Ret (Some p, e') →
  (∀ d, ResolvedPolicy.cacheControl p = Some d → d ∈ VALID_DIRECTIVES)
  ∧ (∀ l, ResolvedPolicy.invalidates p = Some l →
          l ≠ [] ∧ Forall (fun s => s ≠ []) l)
  ∧ (ResolvedPolicy.cacheControl p ≠ None ∨ ResolvedPolicy.invalidates p ≠ None).
Proof.
  intros Hnew Hreach Hres.
  pose proof Hnew as (Hall & Hd & _)%new_Ok.
  destruct (resolve_reachable rules defaults Hd e0 e name Hnew Hreach)
    as (r & e1 & Hres' & Hval).
  rewrite Hres in Hres'. injection Hres' as <- <-.
  cbn in Hval. symmetry in Hval.
  by eapply resolve_spec_well_formed.
Qed.

Lemma resolve_well_formed_witness :
  let rules := [SyncPolicy.mk (JStr (lit "sprints.update")) JUndefined
                  (JArr [JStr (lit "sprints.*")])] in
  let p := ResolvedPolicy.mk 0 None (Some [lit "sprints.*"]) in
  (∀ d, ResolvedPolicy.cacheControl p = Some d → d ∈ VALID_DIRECTIVES)
  ∧ (∀ l, ResolvedPolicy.invalidates p = Some l →
          l ≠ [] ∧ Forall (fun s => s ≠ []) l)
  ∧ (ResolvedPolicy.cacheControl p ≠ None ∨ ResolvedPolicy.invalidates p ≠ None).
Proof.
  intros rules p.
  apply (resolve_well_formed rules None
           (PolicyEngine.mk rules JUndefined ∅ 0)
           (PolicyEngine.mk rules JUndefined ∅ 0)
           (PolicyEngine.mk rules JUndefined
              (<[lit "sprints.update" := Some p]> ∅) 1)
           (lit "sprints.update") p).
  - vm_compute. reflexivity.
  - apply reachable_new.
  - vm_compute. reflexivity.
Defined.

(** X11. Only the first matching rule counts.  For a name that no rule
    before some rule matches and that this rule matches, an engine over
    the whole list resolves the name to the same value as an engine
    holding that rule alone: the rules before are skipped and the rules
    after are never consulted, whatever they say. *)
Theorem resolve_first_match_only
    (pre : list SyncPolicy.t) (rule : SyncPolicy.t) (post : list SyncPolicy.t)
    (defaults : option Defaults.t) (e0 e e0' e' : PolicyEngine.t)
    (name pattern : jsstring) :
  PolicyEngine.new (pre ++ rule :: post) defaults = Ok e0 →
  PolicyEngine.new [rule] defaults = Ok e0' →
  reachable e0 e → reachable e0' e' →
  (∀ q m, q ∈ pre → SyncPolicy.match_ q = JStr m → matchGlob m name = false) →
  SyncPolicy.match_ rule = JStr pattern → matchGlob pattern name = true →
  ∃ r r' e1 e1',
    resolve e name = Ret (r, e1) ∧ resolve e' name = Ret (r', e1')
    ∧ ResolvedPolicy.value <$> r = ResolvedPolicy.value <$> r'.
Proof.
  intros Hnew Hnew' Hreach Hreach' Hpre Hpat Hmatch.
  pose proof Hnew as (Hall & Hd & _)%new_Ok.
  destruct (resolve_reachable _ defaults Hd e0 e name Hnew Hreach)
    as (r & e1 & Hres & Hval).
  destruct (resolve_reachable _ defaults Hd e0' e' name Hnew' Hreach')
    as (r' & e1' & Hres' & Hval').
  exists r, r', e1, e1'. split_and!; [done | done |].
  rewrite Hval, Hval'. apply resolve_spec_first_match.
  - apply Forall_app in Hall as [Hall _].
    rewrite Forall_forall in Hall |- *. intros q Hq.
    destruct (Hall q Hq) as ((m & Hm & _) & _).
    unfold rule_matches. rewrite Hm. by eapply Hpre.
  - unfold rule_matches. by rewrite Hpat.
Qed.

Lemma resolve_first_match_only_witness :
  let pre := [SyncPolicy.mk (JStr (lit "tasks.*")) (JStr (lit "immutable")) JUndefined] in
  let rule := SyncPolicy.mk (JStr (lit "sprints.*")) JUndefined JUndefined in
  let post := [SyncPolicy.mk (JStr (lit "**")) (JStr (lit "no-store")) JUndefined] in
  let e0 := PolicyEngine.mk (pre ++ rule :: post) JUndefined ∅ 0 in
  let e0' := PolicyEngine.mk [rule] JUndefined ∅ 0 in
  ∃ r r' e1 e1',
    resolve e0 (lit "sprints.get") = Ret (r, e1)
    ∧ resolve e0' (lit "sprints.get") = Ret (r', e1')
    ∧ ResolvedPolicy.value <$> r = ResolvedPolicy.value <$> r'.
Proof.
  intros pre rule post e0 e0'.
  apply (resolve_first_match_only pre rule post None e0 e0 e0' e0'
           (lit "sprints.get") (lit "sprints.*")).
  - vm_compute. reflexivity.
  - vm_compute. reflexivity.
  - apply reachable_new.
  - apply reachable_new.
  - intros q m [-> | Hq]%elem_of_cons; [|by apply elem_of_nil in Hq].
    intros [= <-]. vm_compute. reflexivity.
  - reflexivity.
  - vm_compute. reflexivity.
Defined.

(** X12. An empty [invalidates] array means the same as none.  Removing
    the field from every rule where it is the empty array gives a
    configuration that constructs as well, and the two engines resolve
    every name to the same value. *)
Theorem resolve_ignores_empty_invalidates
    (rules : list SyncPolicy.t) (defaults : option Defaults.t)
    (e0 : PolicyEngine.t) :
  PolicyEngine.new rules defaults = Ok e0 →
  ∃ e0', PolicyEngine.new (map without_empty_invalidates rules) defaults = Ok e0'
    ∧ ∀ e e' name, reachable e0 e → reachable e0' e' →
        ∃ r r' e1 e1',
          resolve e name = Ret (r, e1) ∧ resolve e' name = Ret (r', e1')
          ∧ ResolvedPolicy.value <$> r = ResolvedPolicy.value <$> r'.
Proof.
  intros Hnew. pose proof Hnew as (Hall & Hd & _)%new_Ok.
  assert (PolicyEngine.new (map without_empty_invalidates rules) defaults
          = Ok (PolicyEngine.mk (map without_empty_invalidates rules)
                  (defaults_cacheControl defaults) ∅ 0)) as Hnew'.
  { apply new_Ok. split_and!; [|done|done].
    apply Forall_map. eapply Forall_impl; [exact Hall|].
    apply without_empty_invalidates_valid. }
  eexists. split; [exact Hnew'|].
  intros e e' name Hreach Hreach'.
  destruct (resolve_reachable _ defaults Hd e0 e name Hnew Hreach)
    as (r & e1 & Hres & Hval).
  destruct (resolve_reachable _ defaults Hd _ e' name Hnew' Hreach')
    as (r' & e1' & Hres' & Hval').
  exists r, r', e1, e1'. split_and!; [done | done |].
  by rewrite Hval, Hval', resolve_spec_without_empty.
Qed.

Lemma resolve_ignores_empty_invalidates_witness :
  let rules := [SyncPolicy.mk (JStr (lit "sprints.update")) (JStr (lit "no-store"))
                  (JArr [])] in
  ∃ e0', PolicyEngine.new (map without_empty_invalidates rules) None = Ok e0'
    ∧ ∀ e e' name,
        reachable (PolicyEngine.mk rules JUndefined ∅ 0) e → reachable e0' e' →
        ∃ r r' e1 e1',
          resolve e name = Ret (r, e1) ∧ resolve e' name = Ret (r', e1')
          ∧ ResolvedPolicy.value <$> r = ResolvedPolicy.value <$> r'.
Proof.
  intros rules.
  apply (resolve_ignores_empty_invalidates rules None
           (PolicyEngine.mk rules JUndefined ∅ 0)).
  vm_compute. reflexivity.
Defined.

(** X13. Two names never share a policy object.  On an engine that came
    from the constructor, when two different names each resolve to a
    policy, the two objects are distinct, even when their contents are
    equal: every uncached resolution allocates its own. *)
Theorem resolve_distinct_objects
    (rules : list SyncPolicy.t) (defaults : option Defaults.t)
    (e0 e e1 e2 : PolicyEngine.t) (n1 n2 : jsstring) (p1 p2 : ResolvedPolicy.t) :
  PolicyEngine.new rules defaults = Ok e0 →
  reachable e0 e →
  resolve e n1 = Ret (Some p1, e1) →
  resolve e1 n2 = Ret (Some p2, e2) →
  n1 ≠ n2 →
  ResolvedPolicy.id p1 ≠ ResolvedPolicy.id p2.
Proof.
  intros Hnew Hreach H1 H2 Hne Hid.
  apply new_Ok in Hnew as (_ & _ & ->).
  assert (reachable (PolicyEngine.mk rules (defaults_cacheControl defaults) ∅ 0) e2)
    as Hreach2 by (eapply reachable_step; [eapply reachable_step|]; eauto).
  apply reachable_ids in Hreach2 as [_ Hdist].
  - apply Hne. eapply (Hdist n1 n2 p1 p2); [|by eapply resolve_preserves|done].
    apply resolve_preserves in H1 as (_ & _ & _ & Hl1 & _).
    apply resolve_preserves in H2 as (_ & _ & Hsub & _ & _).
    by eapply lookup_weaken.
  - split; [intros n p | intros n1' n2' p1' p2']; cbn; by rewrite lookup_empty.
Qed.

Lemma resolve_distinct_objects_witness :
  let rules := [SyncPolicy.mk (JStr (lit "**")) (JStr (lit "no-store")) JUndefined] in
  let p1 := ResolvedPolicy.mk 0 (Some (lit "no-store")) None in
  let p2 := ResolvedPolicy.mk 1 (Some (lit "no-store")) None in
  ResolvedPolicy.id p1 ≠ ResolvedPolicy.id p2.
Proof.
  intros rules p1 p2.
  pose (e0 := PolicyEngine.mk rules JUndefined ∅ 0).
  pose (e1 := PolicyEngine.mk rules JUndefined (<[lit "a" := Some p1]> ∅) 1).
  pose (e2 := PolicyEngine.mk rules JUndefined
                (<[lit "b" := Some p2]> (<[lit "a" := Some p1]> ∅)) 2).
  apply (resolve_distinct_objects rules None e0 e0 e1 e2 (lit "a") (lit "b") p1 p2).
  - vm_compute. reflexivity.
  - apply reachable_new.
  - vm_compute. reflexivity.
  - vm_compute. reflexivity.
  - discriminate.
Defined.

(** ** ServerWrapper: the two handlers end to end *)

Section HandlerMore.

Import Heap ListToolsHandler.

Lemma decorateDescription_value (tool : McpToolDef.t) (r r' : option ResolvedPolicy.t) :
  ResolvedPolicy.value <$> r = ResolvedPolicy.value <$> r' →
  decorateDescription tool r = decorateDescription tool r'.
Proof.
  intros Hv. unfold decorateDescription, directive_of.
  destruct r as [[i c l]|], r' as [[i' c' l']|]; cbn in Hv; try done.
  by injection Hv as -> ->.
Qed.

Lemma decorateDescription_name (tool : McpToolDef.t) (r : option ResolvedPolicy.t) :
  McpToolDef.name (decorateDescription tool r) = McpToolDef.name tool.
Proof. unfold decorateDescription. by destruct (directive_of r). Qed.

(** One listing: every tool is decorated with the policy its name is
    cached under afterwards. *)
Lemma decorateTools_cached (tools : list McpToolDef.t) : ∀ e out e',
  decorateTools e tools = Ret (out, e') →
  cache e ⊆ cache e'
  ∧ Forall2 (fun tool tool' =>
       ∃ r, cache e' !! McpToolDef.name tool = Some r
            ∧ tool' = decorateDescription tool r) tools out.
Proof.
  induction tools as [|tool tools IH]; intros e out e'; cbn.
  - intros [= <- <-]. split; [done | constructor].
  - destruct (resolve e (McpToolDef.name tool)) as [[r e1]|] eqn:Hres; [|done].
    destruct (decorateTools e1 tools) as [[others e2]|] eqn:Hrest; [|done].
    intros [= <- <-].
    apply resolve_preserves in Hres as (_ & _ & Hsub & Hlook & _).
    apply IH in Hrest as [Hsub' Hall]. split; [by etrans|].
    constructor; [|done]. exists r. split; [|done].
    by eapply lookup_weaken.
Qed.

(** A listing of tools whose names are all cached reads the cache and
    leaves the engine as it is. *)
Lemma decorateTools_hit (e : PolicyEngine.t) (tools out : list McpToolDef.t) :
  Forall2 (fun tool tool' =>
     ∃ r, cache e !! McpToolDef.name tool = Some r
          ∧ tool' = decorateDescription tool r) tools out →
  decorateTools e tools = Ret (out, e).
Proof.
  induction 1 as [|tool tool' tools out (r & Hr & ->) _ IH]; cbn; [done|].
  unfold resolve. by rewrite Hr, IH.
Qed.

Lemma value_Some_inv (r : option ResolvedPolicy.t) d l :
  ResolvedPolicy.value <$> r = Some (d, l) →
  ∃ p, r = Some p ∧ ResolvedPolicy.cacheControl p = d ∧ ResolvedPolicy.invalidates p = l.
Proof. destruct r as [p|]; [|done]. intros [= <- <-]. eauto. Qed.

End HandlerMore.

(** X14. The [tools/call] handler, end to end.  On a constructed engine
    and a well-formed upstream result, the patterns to invalidate are
    none when the result carries [isError: true], and otherwise the
    invalidation list of the policy the tool name resolves to.  With no
    pattern the handler returns the upstream result itself and touches
    nothing; with patterns it returns a new result whose content is the
    notice block for those patterns and that tool name followed by the
    original blocks, with the other fields carried over and every existing
    object left as it was. *)
Theorem callToolHandler_outcome
    (rules : list SyncPolicy.t) (defaults : option Defaults.t)
    (e0 e : PolicyEngine.t) (h : gmap positive Heap.cell) (name : jsstring)
    (result content : positive) (isError : option bool)
    (rest : list (jsstring * jsval)) (items : list ContentBlock.t) :
  PolicyEngine.new rules defaults = Ok e0 →
  reachable e0 e →
  h !! result = Some (Heap.Result content isError rest) →
  h !! content = Some (Heap.Array items) →
  let patterns :=
    if default false isError then []
    else match resolve_spec rules defaults name with
         | Some (_, Some l) => l
         | _ => []
         end in
  ∃ e', reachable e0 e'
    ∧ match patterns with
      | [] => callToolHandler e h name result = Ret (result, h, e')
      | _ :: _ =>
        ∃ result' content' h',
          callToolHandler e h name result = Ret (result', h', e')
          ∧ h !! result' = None
          ∧ h' !! result' = Some (Heap.Result content' isError rest)
          ∧ h' !! content' = Some (Heap.Array (systemBlock patterns name :: items))
          ∧ h ⊆ h'
      end.
Proof.
  intros Hnew Hreach Hres Hcont patterns.
  pose proof Hnew as (_ & Hd & _)%new_Ok.
  destruct (resolve_reachable rules defaults Hd e0 e name Hnew Hreach)
    as (r & e1 & Hresolve & Hval).
  exists e1. split; [by eapply reachable_step|].
  unfold callToolHandler. rewrite Hresolve, Hres.
  assert (resolveInvalidations r (default false isError) = patterns) as ->.
  { unfold patterns, resolveInvalidations.
    destruct (default false isError); [done|].
    destruct (resolve_spec rules defaults name) as [[d l]|].
    - apply value_Some_inv in Hval as (p & -> & _ & ->). by destruct l.
    - by destruct r. }
  destruct patterns as [|x xs]; [done|]. cbn [length Nat.ltb Nat.leb].
  destruct (decorateResponse_spec h result content isError rest items (x :: xs) name
              Hres Hcont) as (result' & content' & h' & Hrun & Hn1 & _ & Hr & Hc & Hsub).
  rewrite Hrun. by exists result', content', h'.
Qed.

Lemma callToolHandler_outcome_witness :
  let rules := [SyncPolicy.mk (JStr (lit "sprints.update")) JUndefined
                  (JArr [JStr (lit "sprints.*")])] in
  let e0 := PolicyEngine.mk rules JUndefined ∅ 0 in
  let h : gmap positive Heap.cell :=
    <[1%positive := Heap.Result 2%positive (Some true) []]>
      (<[2%positive := Heap.Array []]> ∅) in
  let patterns :=
    if default false (Some true) then []
    else match resolve_spec rules None (lit "sprints.update") with
         | Some (_, Some l) => l
         | _ => []
         end in
  ∃ e', reachable e0 e'
    ∧ match patterns with
      | [] => callToolHandler e0 h (lit "sprints.update") 1%positive
              = Ret (1%positive, h, e')
      | _ :: _ =>
        ∃ result' content' h',
          callToolHandler e0 h (lit "sprints.update") 1%positive = Ret (result', h', e')
          ∧ h !! result' = None
          ∧ h' !! result' = Some (Heap.Result content' (Some true) [])
          ∧ h' !! content'
            = Some (Heap.Array (systemBlock patterns (lit "sprints.update") :: []))
          ∧ h ⊆ h'
      end.
Proof.
  intros rules e0 h.
  apply (callToolHandler_outcome rules None e0 e0 h (lit "sprints.update")
           1%positive 2%positive (Some true) [] []).
  - vm_compute. reflexivity.
  - apply reachable_new.
  - reflexivity.
  - reflexivity.
Defined.

(** X15. The [tools/list] handler, end to end.  On a constructed engine
    it returns, for the upstream tools in their order, each tool decorated
    with the policy its own name resolves to; the names of the tools come
    out unchanged, so does their number. *)
Theorem listToolsHandler_outcome
    (rules : list SyncPolicy.t) (defaults : option Defaults.t)
    (e0 e : PolicyEngine.t) (tools : list McpToolDef.t) :
  PolicyEngine.new rules defaults = Ok e0 →
  reachable e0 e →
  ∃ out e',
    ListToolsHandler.listToolsHandler e tools = Ret (out, e')
    ∧ reachable e0 e'
    ∧ out = map (fun tool =>
              decorateDescription tool
                (with_id 0 (resolve_spec rules defaults (McpToolDef.name tool))))
              tools
    ∧ map McpToolDef.name out = map McpToolDef.name tools.
Proof.
  intros Hnew. pose proof Hnew as (_ & Hd & _)%new_Ok.
  unfold ListToolsHandler.listToolsHandler. revert e.
  induction tools as [|tool tools IH]; intros e Hreach; cbn.
  - by exists [], e.
  - destruct (resolve_reachable rules defaults Hd e0 e (McpToolDef.name tool) Hnew Hreach)
      as (r & e1 & Hres & Hval).
    rewrite Hres.
    destruct (IH e1) as (out & e2 & Hrun & Hreach2 & Hout & Hnames);
      [by eapply reachable_step|].
    rewrite Hrun. eexists _, e2. split_and!; [done | done | |].
    + rewrite <- Hout. f_equal. apply decorateDescription_value.
      by rewrite value_with_id.
    + cbn. by rewrite decorateDescription_name, Hnames.
Qed.

Lemma listToolsHandler_outcome_witness :
  let rules := [SyncPolicy.mk (JStr (lit "countries.*")) (JStr (lit "immutable"))
                  JUndefined] in
  let defaults := Some (Defaults.mk (JStr (lit "no-store"))) in
  let e0 := PolicyEngine.mk rules (JStr (lit "no-store")) ∅ 0 in
  let tools := [McpToolDef.mk (lit "sprints.get") (Some (lit "Get sprint details."))
                  JObj JUndefined;
                McpToolDef.mk (lit "countries.list") (Some (lit "List all countries."))
                  JObj JUndefined] in
  ∃ out e',
    ListToolsHandler.listToolsHandler e0 tools = Ret (out, e')
    ∧ reachable e0 e'
    ∧ out = map (fun tool =>
              decorateDescription tool
                (with_id 0 (resolve_spec rules defaults (McpToolDef.name tool))))
              tools
    ∧ map McpToolDef.name out = map McpToolDef.name tools.
Proof.
  intros rules defaults e0 tools.
  apply (listToolsHandler_outcome rules defaults e0 e0 tools).
  - vm_compute. reflexivity.
  - apply reachable_new.
Defined.

Example listToolsHandler_descriptions :
  let rules := [SyncPolicy.mk (JStr (lit "countries.*")) (JStr (lit "immutable"))
                  JUndefined] in
  let e0 := PolicyEngine.mk rules (JStr (lit "no-store")) ∅ 0 in
  let tools := [McpToolDef.mk (lit "sprints.get") (Some (lit "Get sprint details."))
                  JObj JUndefined;
                McpToolDef.mk (lit "countries.list") (Some (lit "List all countries."))
                  JObj JUndefined] in
  match ListToolsHandler.listToolsHandler e0 tools with
  | Ret (out, _) =>
    map McpToolDef.description out
    = [Some (lit "Get sprint details. [Cache-Control: no-store]");
       Some (lit "List all countries. [Cache-Control: immutable]")]
  | IllTyped => False
  end.
Proof. by vm_compute. Qed.

(** X16. Listing is repeatable.  When the [tools/list] handler has
    answered once, answering again for the same upstream tools gives the
    same descriptors and leaves the engine as it is: the second pass is
    served from the cache. *)
Theorem listToolsHandler_repeatable
    (e e' : PolicyEngine.t) (tools out : list McpToolDef.t) :
  ListToolsHandler.listToolsHandler e tools = Ret (out, e') →
  ListToolsHandler.listToolsHandler e' tools = Ret (out, e').
Proof.
  unfold ListToolsHandler.listToolsHandler.
  intros [_ Hall]%decorateTools_cached. by apply decorateTools_hit.
Qed.

Lemma listToolsHandler_repeatable_witness :
  let rules := [SyncPolicy.mk (JStr (lit "**")) (JStr (lit "no-store")) JUndefined] in
  let p := ResolvedPolicy.mk 0 (Some (lit "no-store")) None in
  let e := PolicyEngine.mk rules JUndefined ∅ 0 in
  let e' := PolicyEngine.mk rules JUndefined (<[lit "ping" := Some p]> ∅) 1 in
  let tools := [McpToolDef.mk (lit "ping") None JObj JUndefined] in
  let out := [McpToolDef.mk (lit "ping") (Some (lit " [Cache-Control: no-store]"))
                JObj JUndefined] in
  ListToolsHandler.listToolsHandler e' tools = Ret (out, e').
Proof.
  intros rules p e e' tools out.
  apply (listToolsHandler_repeatable e e' tools out).
  vm_compute. reflexivity.
Defined.

(** ** ServerResolver *)

(** X17. What [resolveServer] hands back can be registered on.  Whenever
    it returns, the value is an object whose [setRequestHandler] is a
    function, and it is the argument's [server] property or the argument
    itself; the inner server is preferred, so the argument itself is
    returned only when its [server] property is not such an object.  When
    it throws, the message names what was received for an argument that
    is not an object ([null] for [null], its [typeof] otherwise), and says
    that [setRequestHandler] is missing for an object. *)
Theorem resolveServer_postcondition (server : ServerResolver.value) :
  match ServerResolver.resolveServer server with
  | Ok r =>
    ServerResolver.typeof r = lit "object"
    ∧ ServerResolver.typeof (ServerResolver.get_setRequestHandler r) = lit "function"
    ∧ (r = ServerResolver.get_server server
       ∨ (r = server
          ∧ ¬ (ServerResolver.typeof (ServerResolver.get_server server) = lit "object"
               ∧ ServerResolver.typeof
                   (ServerResolver.get_setRequestHandler
                      (ServerResolver.get_server server)) = lit "function")))
  | Throw message =>
    message =
      match server with
      | ServerResolver.VObject _ _ _ =>
        lit "StateSync: the provided object does not have setRequestHandler(). Expected a Server or McpServer instance from @modelcontextprotocol/sdk."
      | ServerResolver.VNull =>
        lit "StateSync: expected a Server or McpServer instance, received null."
      | _ =>
        lit "StateSync: expected a Server or McpServer instance, received "
        ++ ServerResolver.typeof server ++ lit "."
      end
  end.
Proof.
  unfold ServerResolver.resolveServer.
  destruct server as [| |b|z|s|k|id srv f];
    cbn [ServerResolver.truthy ServerResolver.typeof].
  - reflexivity.
  - reflexivity.
  - replace (negb (str_eqb (lit "boolean") (lit "object"))) with true by done.
    rewrite orb_true_r. reflexivity.
  - replace (negb (str_eqb (lit "number") (lit "object"))) with true by done.
    rewrite orb_true_r. reflexivity.
  - replace (negb (str_eqb (lit "string") (lit "object"))) with true by done.
    rewrite orb_true_r. reflexivity.
  - replace (negb (str_eqb (lit "function") (lit "object"))) with true by done.
    rewrite orb_true_r. reflexivity.
  - cbn [ServerResolver.truthy ServerResolver.typeof negb orb].
    replace (str_eqb (lit "object") (lit "object")) with true by done.
    cbn [negb]. cbn zeta.
    destruct (_ && _ && _ && _) eqn:Hinner.
    + apply andb_true_iff in Hinner as [Hinner Hf%str_eqb_true].
      apply andb_true_iff in Hinner as [_ Ho%str_eqb_true].
      split_and!; [done | done | by left].
    + destruct (str_eqb (ServerResolver.typeof
                  (ServerResolver.get_setRequestHandler
                     (ServerResolver.VObject id srv f))) (lit "function")) eqn:Hown;
        [|reflexivity].
      apply str_eqb_true in Hown. split_and!; [done | done |].
      right. split; [done|]. intros [Ho Hf%str_eqb_true].
      rewrite Hf, andb_true_r in Hinner.
      destruct srv as [inner|]; [|done].
      by destruct inner.
Qed.

(** ** DescriptionDecorator: repeated decoration *)

Section ScannerFacts.

Import Regex Scanner.

Lemma Matches_Lit_self (l : jsstring) : Matches (Lit l) l.
Proof.
  induction l as [|c l IH]; cbn; [constructor|].
  apply (Matches_Cat _ _ [c] l); [|done]. constructor. apply N.eqb_refl.
Qed.

Lemma Matches_Cat_Lit (l : jsstring) (r : Regex.t) (u : jsstring) :
  Matches (Cat (Lit l) r) u ↔ ∃ v, u = l ++ v ∧ Matches r v.
Proof.
  rewrite Matches_Cat_iff. split.
  - intros (u1 & u2 & -> & ->%Matches_Lit & H2). eauto.
  - intros (v & -> & Hv). exists l, v. split_and!; [done | apply Matches_Lit_self | done].
Qed.

Lemma Matches_Class_cons (p : N → bool) (r : Regex.t) c (u : jsstring) :
  Matches (Cat (Class p) r) (c :: u) ↔ p c = true ∧ Matches r u.
Proof.
  rewrite Matches_Cat_iff. split.
  - intros (u1 & u2 & Heq & (c' & -> & Hc)%Matches_Class_iff & H2).
    cbn in Heq. by injection Heq as -> ->.
  - intros [Hc Hr]. exists [c], u. split_and!; [done | by constructor | done].
Qed.

Lemma Matches_LitThen (l : jsstring) (r : Regex.t) (u : jsstring) :
  Matches (LitThen l r) u ↔ ∃ v, u = l ++ v ∧ Matches r v.
Proof.
  revert u. induction l as [|c l IH]; intros u; cbn.
  - split; [eauto | by intros (v & -> & ?)].
  - destruct u as [|c' u].
    + split; [|by intros (v & ? & _)].
      intros (u1 & u2 & Heq & (x & -> & _)%Matches_Class_iff & _)%Matches_Cat_iff.
      done.
    + rewrite Matches_Class_cons, IH, N.eqb_eq. split.
      * intros [-> (v & -> & Hv)]. eauto.
      * intros (v & [= -> ->] & Hv). eauto.
Qed.

Lemma Matches_Star_Class_cons (p : N → bool) (r : Regex.t) c (u : jsstring) :
  Matches (Cat (Star (Class p)) r) (c :: u)
  ↔ (p c = true ∧ Matches (Cat (Star (Class p)) r) u) ∨ Matches r (c :: u).
Proof.
  rewrite !Matches_Cat_iff. split.
  - intros (u1 & u2 & Heq & H1%Matches_Star_Class_iff & H2).
    destruct u1 as [|c' u1]; cbn in Heq.
    + right. by subst.
    + injection Heq as -> ->. apply Forall_cons in H1 as [Hc H1]. left.
      split; [done|]. exists u1, u2. by rewrite Matches_Star_Class_iff.
  - intros [[Hc (u1 & u2 & -> & H1%Matches_Star_Class_iff & H2)] | H].
    + exists (c :: u1), u2.
      split_and!; [done | apply Matches_Star_Class_iff; by constructor | done].
    + exists [], (c :: u). split_and!; [done | constructor | done].
Qed.

Lemma space_not_word (c : N) : space c = true → word c = false.
Proof.
  unfold space, word.
  rewrite !orb_true_iff, !andb_true_iff, !N.eqb_eq, !N.leb_le.
  intros H.
  apply not_true_is_false. rewrite !orb_true_iff, !andb_true_iff, !N.eqb_eq, !N.leb_le.
  lia.
Qed.

Lemma step_lang (q : state) c (u : jsstring) :
  Matches (lang q) (c :: u) ↔ Matches (lang (step q c)) u.
Proof.
  destruct q as [|[|x rest]| | |]; cbn [lang step].
  - change CACHE_CONTROL_PATTERN
      with (Cat (Star (Class space)) (Cat (Lit (LBRACKET :: LITERAL_REST)) TAIL)).
    rewrite Matches_Star_Class_cons, Matches_Cat_Lit.
    destruct (space c) eqn:Hs.
    + split; [|by left]. intros [[_ H] | (v & Heq & _)]; [done|].
      injection Heq as -> _. by vm_compute in Hs.
    + destruct (N.eqb_spec LBRACKET c) as [<-|Hne]; cbn [lang].
      * rewrite Matches_LitThen. split.
        -- intros [[? _] | (v & [= ->] & Hv)]; [done | eauto].
        -- intros (v & -> & Hv). right. eauto.
      * split; [|inversion 1]. intros [[? _] | (v & [= ? _] & _)]; done.
  - cbn [LitThen]. unfold TAIL at 1.
    rewrite Matches_Star_Class_cons, Matches_Class_cons.
    destruct (space c) eqn:Hs.
    + rewrite (space_not_word c Hs). cbn [lang LitThen].
      split; [intros [[_ H] | [? _]]; done | by left].
    + destruct (word c); cbn [lang LitThen].
      * split; [intros [[? _] | [_ H]]; done | by right].
      * split; [intros [[? _] | [? _]]; done | inversion 1].
  - cbn [LitThen]. rewrite Matches_Class_cons.
    destruct (N.eqb x c); cbn [lang]; [by split; [intros [_ ?] | ] |].
    split; [by intros [? _] | inversion 1].
  - unfold BODY. rewrite Matches_Star_Class_cons.
    destruct (N.eqb_spec RBRACKET c) as [<-|Hne]; cbn [lang].
    + rewrite Matches_Eps_iff. split.
      * intros [[? _] | H]; [done|].
        apply Matches_Class_iff in H as (x & [= _ ->] & _). done.
      * intros ->. right. constructor. apply N.eqb_refl.
    + fold BODY. split; [|left; split; [|done]].
      * intros [[_ H] | H]; [done|].
        apply Matches_Class_iff in H as (x & [= -> _] & ?%N.eqb_eq). done.
      * apply negb_true_iff, N.eqb_neq. congruence.
  - split; inversion 1.
  - split; inversion 1.
Qed.

(** The scanner accepts from a state exactly the language of the state;
    from [Leading], what the detection pattern matches. *)
Lemma run_lang (u : jsstring) : ∀ q, Matches (lang q) u ↔ run q u = Done.
Proof.
  induction u as [|c u IH]; intros q.
  - rewrite <- nullable_Matches. cbn.
    destruct q as [|[|x rest]| | |]; cbn; split; done.
  - rewrite step_lang. apply IH.
Qed.

Lemma run_app (q : state) (a b : jsstring) : run q (a ++ b) = run (run q a) b.
Proof. apply foldl_app. Qed.

Lemma run_Dead (u : jsstring) : run Dead u = Dead.
Proof. induction u as [|c u IH]; [done | exact IH]. Qed.

Lemma step_wf (q : state) c : wf q → wf (step q c).
Proof.
  destruct q as [|[|x rest]| | |]; cbn [step wf]; try done.
  - intros _. destruct (space c); [done|].
    destruct (N.eqb LBRACKET c); [|done]. cbn [wf]. done.
  - intros H. destruct (space c); [exact H|]. by destruct (word c).
  - intros H. destruct (N.eqb x c); [|done]. cbn [wf]. by eapply suffix_cons_l.
  - intros _. by destruct (N.eqb RBRACKET c).
Qed.

Lemma run_wf (u : jsstring) : ∀ q, wf q → wf (run q u).
Proof.
  induction u as [|c u IH]; intros q Hq; [done|]. apply IH. by apply step_wf.
Qed.

Lemma wf_literal_char (x : N) (rest : jsstring) :
  wf (InLiteral (x :: rest)) → x ≠ 32%N ∧ x ≠ RBRACKET.
Proof.
  intros [k Hk].
  assert (Forall (fun c => c ≠ 32%N ∧ c ≠ RBRACKET) LITERAL_REST) as Hall.
  { unfold LITERAL_REST. vm_compute. repeat constructor; discriminate. }
  rewrite Forall_forall in Hall. apply Hall.
  rewrite Hk, elem_of_app, elem_of_cons. auto.
Qed.

(** From the directive text on, any string that some live state accepts
    is accepted: it has one closing bracket, at its end. *)
Lemma run_Body_of (v : jsstring) : ∀ q,
  wf q → run q v = Done → q ≠ Done → run Body v = Done.
Proof.
  induction v as [|c v IH]; intros q Hwf Hrun Hq; [done|].
  change (run q (c :: v)) with (run (step q c) v) in Hrun.
  change (run Body (c :: v)) with (run (step Body c) v).
  destruct (N.eqb_spec RBRACKET c) as [<-|Hne].
  - destruct q as [|[|x rest]| | |]; try done.
    + change (step Leading RBRACKET) with Dead in Hrun. by rewrite run_Dead in Hrun.
    + change (step (InLiteral []) RBRACKET) with Dead in Hrun.
      by rewrite run_Dead in Hrun.
    + apply wf_literal_char in Hwf as [_ Hx]. cbn [step] in Hrun.
      destruct (N.eqb_spec x RBRACKET); [done|]. by rewrite run_Dead in Hrun.
    + by rewrite run_Dead in Hrun.
  - assert (step Body c = Body) as ->.
    { cbn [step]. by destruct (N.eqb_spec RBRACKET c). }
    apply (IH (step q c)); [by apply step_wf | done |].
    destruct q as [|[|x rest]| | |]; cbn [step]; try done.
    + destruct (space c); [done|]. by destruct (N.eqb LBRACKET c).
    + destruct (space c); [done|]. by destruct (word c).
    + by destruct (N.eqb x c).
    + by destruct (N.eqb_spec RBRACKET c).
Qed.

(** A state from which an emitted annotation is accepted is [Leading] or
    [Body]: the text before the annotation is white space, or it has
    opened a directive and not closed it. *)
Lemma run_annotation_from (q : state) (w : jsstring) :
  wf q → run q (32%N :: LBRACKET :: w) = Done → q = Leading ∨ q = Body.
Proof.
  destruct q as [|[|x rest]| | |]; intros Hwf Hrun; auto; exfalso.
  - change (run (InLiteral []) (32%N :: LBRACKET :: w)) with (run Dead w) in Hrun.
    by rewrite run_Dead in Hrun.
  - apply wf_literal_char in Hwf as [Hx _].
    change (run (InLiteral (x :: rest)) (32%N :: LBRACKET :: w))
      with (run (if N.eqb x 32 then InLiteral rest else Dead) (LBRACKET :: w)) in Hrun.
    destruct (N.eqb_spec x 32%N); [done|]. by rewrite run_Dead in Hrun.
  - change (run Done (32%N :: LBRACKET :: w)) with (run Dead w) in Hrun.
    by rewrite run_Dead in Hrun.
  - by rewrite run_Dead in Hrun.
Qed.

(** What is found to match before an annotation also matches before any
    other text the pattern matches. *)
Lemma Matches_before_annotation (t w rest : jsstring) :
  Matches CACHE_CONTROL_PATTERN (t ++ 32%N :: LBRACKET :: w) →
  Matches CACHE_CONTROL_PATTERN rest →
  Matches CACHE_CONTROL_PATTERN (t ++ rest).
Proof.
  intros Ha Hrest.
  apply (run_lang _ Leading) in Ha. apply (run_lang _ Leading) in Hrest.
  apply (run_lang _ Leading). rewrite run_app in Ha |- *.
  apply run_annotation_from in Ha as [-> | ->]; [done | | by apply run_wf].
  by apply (run_Body_of rest Leading).
Qed.

(** [replace_at_end] cuts at the leftmost suffix that matches. *)
Lemma replace_at_end_split (r : Regex.t) (s : jsstring) :
  ∃ rest, s = replace_at_end r s ++ rest
    ∧ (∀ t, t ≠ [] → t `suffix_of` replace_at_end r s → ¬ Matches r (t ++ rest))
    ∧ (Matches r rest ∨ ∀ t, t `suffix_of` s → ¬ Matches r t).
Proof.
  induction s as [|c s (rest & Heq & Hleft & Hrest)].
  - exists []. cbn. split_and!.
    + by destruct (nullable r).
    + intros t Hne Hsuf. destruct (nullable r); by apply suffix_nil_inv in Hsuf.
    + destruct (nullable r) eqn:Hn; [left; by apply nullable_Matches|].
      right. intros t ->%suffix_nil_inv H%nullable_Matches. congruence.
  - cbn. destruct (full_match (deriv c r) s) eqn:Hfm.
    + exists (c :: s). split_and!; [done | |].
      * intros t Hne ->%suffix_nil_inv. done.
      * left. by apply (full_match_Matches (c :: s)).
    + exists rest. split_and!.
      * cbn. by rewrite <- Heq.
      * intros t Hne [[|c' k] Hk]; cbn in Hk.
        -- subst t. cbn. rewrite <- Heq. intros H%(full_match_Matches (c :: s)).
           cbn in H. congruence.
        -- injection Hk as -> Hk. apply Hleft; [done | by exists k].
      * destruct Hrest as [Hm | Hno]; [by left | right].
        intros t [[|c' k] Hk]; cbn in Hk.
        -- subst t. intros H%(full_match_Matches (c :: s)). cbn in H. congruence.
        -- injection Hk as -> ->. apply Hno. by exists k.
Qed.

(** After one decoration the text before the annotation is settled: a
    further strip of a further annotation gives it back. *)
Lemma replace_at_end_settled (x d1 d2 : jsstring) :
  d1 ∈ VALID_DIRECTIVES → d2 ∈ VALID_DIRECTIVES →
  replace_at_end CACHE_CONTROL_PATTERN
    (replace_at_end CACHE_CONTROL_PATTERN (x ++ annotation d1) ++ annotation d2)
  = replace_at_end CACHE_CONTROL_PATTERN (x ++ annotation d1).
Proof.
  intros [_ Hm1]%valid_directive_annotation [_ Hm2]%valid_directive_annotation.
  destruct (replace_at_end_split CACHE_CONTROL_PATTERN (x ++ annotation d1))
    as (rest & Heq & Hleft & Hrest).
  assert (Matches CACHE_CONTROL_PATTERN rest) as Hmrest.
  { destruct Hrest as [H | Hno]; [done|].
    exfalso. apply (Hno (annotation d1)); [by exists x | done]. }
  apply replace_at_end_exact; [done|].
  intros t Hne Hsuf Hm. apply (Hleft t Hne Hsuf).
  rewrite annotation_shape in Hm. by eapply Matches_before_annotation.
Qed.

End ScannerFacts.

(** X18. Decoration settles after the first pass.  For a descriptor that
    has been decorated once, decorating it again and then once more gives
    the same descriptor as decorating it once more directly, for any
    three policies that carry one of the two directives: the pass in
    between leaves no trace.  With one policy throughout, the third
    decoration changes nothing, whatever the original description. *)
Theorem decorateDescription_settles
    (tool : McpToolDef.t) (p1 p2 p3 : ResolvedPolicy.t) (d1 d2 d3 : jsstring) :
  ResolvedPolicy.cacheControl p1 = Some d1 → d1 ∈ VALID_DIRECTIVES →
  ResolvedPolicy.cacheControl p2 = Some d2 → d2 ∈ VALID_DIRECTIVES →
  ResolvedPolicy.cacheControl p3 = Some d3 → d3 ∈ VALID_DIRECTIVES →
  decorateDescription
    (decorateDescription (decorateDescription tool (Some p1)) (Some p2)) (Some p3)
  = decorateDescription (decorateDescription tool (Some p1)) (Some p3).
Proof.
  intros H1 Hv1 H2 Hv2 H3 Hv3.
  pose proof (valid_directive_annotation _ Hv1) as [Hne1 _].
  pose proof (valid_directive_annotation _ Hv2) as [Hne2 _].
  pose proof (valid_directive_annotation _ Hv3) as [Hne3 _].
  unfold decorateDescription, directive_of. rewrite H1, H2, H3.
  rewrite !bool_decide_eq_false_2 by done.
  cbn [McpToolDef.description McpToolDef.name McpToolDef.inputSchema
       McpToolDef.annotations default from_option id].
  by rewrite replace_at_end_settled.
Qed.

Lemma decorateDescription_settles_witness :
  let tool :=
    McpToolDef.mk (lit "sprints.get") (Some (lit "Get sprint details. ")) JObj JUndefined in
  let p := ResolvedPolicy.mk 0 (Some (lit "no-store")) None in
  decorateDescription
    (decorateDescription (decorateDescription tool (Some p)) (Some p)) (Some p)
  = decorateDescription (decorateDescription tool (Some p)) (Some p).
Proof.
  intros tool p.
  apply (decorateDescription_settles tool p p p
           (lit "no-store") (lit "no-store") (lit "no-store"));
    first [reflexivity | apply list_elem_of_here].
Defined.

Lemma decorateDescription_replaces_witness :
  let tool :=
    McpToolDef.mk (lit "sprints.get") (Some (lit "Get sprint details. ")) JObj JUndefined in
  let p1 := ResolvedPolicy.mk 0 (Some (lit "no-store")) None in
  let p2 := ResolvedPolicy.mk 1 (Some (lit "immutable")) None in
  ∃ base pre,
    McpToolDef.description (decorateDescription tool (Some p1))
      = Some (base ++ annotation (lit "no-store"))
    ∧ McpToolDef.description
        (decorateDescription (decorateDescription tool (Some p1)) (Some p2))
      = Some (pre ++ annotation (lit "immutable"))
    ∧ pre `prefix_of` base.
Proof.
  intros tool p1 p2.
  apply (decorateDescription_replaces tool p1 p2 (lit "no-store") (lit "immutable")).
  - reflexivity.
  - apply list_elem_of_here.
  - reflexivity.
  - apply list_elem_of_further, list_elem_of_here.
Defined.

Lemma decorateDescription_clean_idempotent_witness :
  let tool :=
    McpToolDef.mk (lit "sprints.get") (Some (lit "Get sprint details.")) JObj JUndefined in
  let p1 := ResolvedPolicy.mk 0 (Some (lit "no-store")) None in
  let p2 := ResolvedPolicy.mk 1 (Some (lit "immutable")) None in
  decorateDescription (decorateDescription tool (Some p1)) (Some p2)
  = decorateDescription tool (Some p2).
Proof.
  intros tool p1 p2.
  apply (decorateDescription_clean_idempotent tool p1 p2 (lit "no-store") (lit "immutable")).
  - reflexivity.
  - apply list_elem_of_here.
  - reflexivity.
  - apply list_elem_of_further, list_elem_of_here.
  - intros Hin%(bool_decide_eq_true_2 _). by vm_compute in Hin.
  - intros pre c Heq. apply (f_equal last) in Heq. rewrite last_snoc in Heq.
    vm_compute in Heq. injection Heq as <-. reflexivity.
Defined.

(** ** GlobMatcher: widening a segment *)

Section GlobWidening.

Implicit Types (ps ns pre post : list jsstring) (a b : jsstring).

Lemma spec_matches_context a b post :
  (∀ ns, spec_matches (a :: post) ns = true → spec_matches (b :: post) ns = true) →
  ∀ pre ns, spec_matches (pre ++ a :: post) ns = true →
            spec_matches (pre ++ b :: post) ns = true.
Proof.
  intros Hab pre. induction pre as [|p pre IH]; intros ns; [apply Hab|].
  cbn [app]. destruct (decide (p = DSTAR)) as [->|Hp].
  - rewrite !spec_matches_dstar. intros (k & Hk & Hm). exists k. auto.
  - apply str_eqb_false in Hp. destruct ns as [|n ns].
    + rewrite !spec_matches_nil_r. cbn [forallb]. by rewrite Hp.
    + rewrite !spec_matches_cons, Hp.
      destruct (str_eqb p STAR); [apply IH|].
      destruct (str_eqb p n); [apply IH | done].
Qed.

Lemma spec_matches_to_star a post ns :
  a ≠ DSTAR →
  spec_matches (a :: post) ns = true → spec_matches (STAR :: post) ns = true.
Proof.
  intros Ha%str_eqb_false. destruct ns as [|n ns].
  - rewrite !spec_matches_nil_r. cbn [forallb]. by rewrite Ha.
  - rewrite !spec_matches_cons, Ha.
    replace (str_eqb STAR DSTAR) with false by done.
    replace (str_eqb STAR STAR) with true by done.
    destruct (str_eqb a STAR); [done|]. by destruct (str_eqb a n).
Qed.

Lemma spec_matches_star_to_dstar post ns :
  spec_matches (STAR :: post) ns = true → spec_matches (DSTAR :: post) ns = true.
Proof.
  destruct ns as [|n ns].
  - rewrite !spec_matches_nil_r. cbn [forallb].
    by replace (str_eqb STAR DSTAR) with false by done.
  - rewrite spec_matches_cons.
    replace (str_eqb STAR DSTAR) with false by done.
    replace (str_eqb STAR STAR) with true by done.
    intros Hm. apply spec_matches_dstar. exists 1. split; [cbn; lia | done].
Qed.

End GlobWidening.

(** X21. Widening a segment of a pattern never loses a match.  When one
    segment of a pattern, not a double star, is replaced by [*], and when
    a [*] is replaced by [**], every name the pattern matched is still
    matched. *)
Theorem matchGlob_widening
    (pattern wider name : jsstring) (pre post : list jsstring) (seg : jsstring) :
  split_dot pattern = pre ++ seg :: post →
  (seg ≠ DSTAR ∧ split_dot wider = pre ++ STAR :: post
   ∨ seg = STAR ∧ split_dot wider = pre ++ DSTAR :: post) →
  matchGlob pattern name = true →
  matchGlob wider name = true.
Proof.
  intros Hp Hw. rewrite !matchGlob_spec, Hp.
  destruct Hw as [[Hseg ->] | [-> ->]].
  - apply spec_matches_context. intros ns. by apply spec_matches_to_star.
  - apply spec_matches_context. intros ns. apply spec_matches_star_to_dstar.
Qed.

Lemma matchGlob_widening_witness :
  matchGlob (lit "sprints.**.get") (lit "sprints.tasks.get") = true.
Proof.
  apply (matchGlob_widening (lit "sprints.*.get") (lit "sprints.**.get")
           (lit "sprints.tasks.get") [lit "sprints"] [lit "get"] (lit "*")).
  - reflexivity.
  - right. split; reflexivity.
  - vm_compute. reflexivity.
Defined.

Example callToolHandler_successful_write :
  let rules := [SyncPolicy.mk (JStr (lit "sprints.update")) JUndefined
                  (JArr [JStr (lit "sprints.*")])] in
  let e0 := PolicyEngine.mk rules JUndefined ∅ 0 in
  let block := ContentBlock.mk (lit "text") [(lit "text", JStr (lit "{ok:true}"))] in
  let h : gmap positive Heap.cell :=
    <[1%positive := Heap.Result 2%positive (Some false) []]>
      (<[2%positive := Heap.Array [block]]> ∅) in
  match callToolHandler e0 h (lit "sprints.update") 1%positive with
  | Ret (result', h', _) =>
    match h' !! result' with
    | Some (Heap.Result content' _ _) =>
      h' !! content'
      = Some (Heap.Array
          [ContentBlock.mk (lit "text")
             [(lit "text",
               JStr (lit "[System: Cache invalidated for sprints.* "
                     ++ [8212%N] ++ lit " caused by sprints.update]"))];
           block])
    | _ => False
    end
  | IllTyped => False
  end.
Proof. by vm_compute. Qed.
